(** * cpc: a copy dispatcher (curl / rsync / atool) with extraction and spill

    Shallow embedding of [src/cpc/__init__.py] and the properties of its
    classifier, transport invoker, extractor and spiller.

    Modelling conventions.
    - Python [str] is [string], a sequence of one-byte characters; argument
      vectors are [list string].
    - The file system is a finite tree of directories and regular files
      (no symbolic links, no permissions); a path is resolved from the root
      of that tree, relative paths through the working directory.  Paths are
      taken as written without [..], which is not interpreted.
    - Exceptions are values of [exn]; a computation is a state transformer
      on [world] that either returns or raises, the state surviving a raise.
    - What the program delegates to other programs and to library routines
      outside this repository ([urllib.parse.urlparse], child processes,
      [tempfile.mktemp], [shutil.copytree]) is the record [Env]. *)

From Stdlib Require Import String Ascii List ZArith NArith Bool Arith Lia.
Import ListNotations.
Local Open Scope string_scope.
#[local] Set Warnings "-register-all".

(* ------------------------------------------------------------------ *)
(** ** Strings *)

Fixpoint all_chars (p : ascii -> bool) (s : string) : bool :=
  match s with
  | EmptyString => true
  | String c s' => p c && all_chars p s'
  end.

(** [sep.join(xs)] *)
Definition join (sep : string) (xs : list string) : string :=
  String.concat sep xs.

(** [s.startswith(p)] *)
Definition startswith (p s : string) : bool := String.prefix p s.

Fixpoint rev_string (s : string) : string :=
  match s with
  | EmptyString => EmptyString
  | String c s' => rev_string s' ++ String c EmptyString
  end.

(** [s.endswith(p)] *)
Definition endswith (p s : string) : bool :=
  String.prefix (rev_string p) (rev_string s).

(** [c in s] *)
Definition has_char (c : ascii) (s : string) : bool :=
  negb (all_chars (fun d => negb (Ascii.eqb d c)) s).

(* ------------------------------------------------------------------ *)
(** ** Regular expressions, as much of [re] as the program uses *)

Module Re.

Inductive class_item : Type :=
| One (c : ascii)                (* a literal character inside [...] *)
| Span (lo hi : ascii).          (* lo-hi inside [...] *)

Inductive regex : Type :=
| Never                          (* matches nothing; only arises in residuals *)
| Eps                            (* the empty pattern *)
| Bol                            (* ^ (no MULTILINE): start of the subject *)
| Lit (c : ascii)                (* a literal character *)
| Chars (items : list class_item)(* [...] *)
| Dot                            (* . (no DOTALL): anything but line feed *)
| Seq (r1 r2 : regex)            (* r1 r2 *)
| Alt (r1 r2 : regex)            (* r1 | r2 *)
| Star (r : regex).              (* r* *)

(** [r+] and [(?:r)?] *)
Definition Plus (r : regex) : regex := Seq r (Star r).
Definition Opt (r : regex) : regex := Alt r Eps.

Definition newline : ascii := "010"%char.

Definition in_item (c : ascii) (i : class_item) : bool :=
  match i with
  | One d => Ascii.eqb c d
  | Span lo hi => (N_of_ascii lo <=? N_of_ascii c)%N && (N_of_ascii c <=? N_of_ascii hi)%N
  end.

Definition in_class (items : list class_item) (c : ascii) : bool :=
  existsb (in_item c) items.

Definition not_newline (c : ascii) : bool := negb (Ascii.eqb c newline).

(** Declarative meaning: [Matches b r s] says that [r] matches exactly [s]
    when the match starts at the beginning of the subject ([b = true]) or
    somewhere later ([b = false]). *)
Inductive Matches : bool -> regex -> string -> Prop :=
| MEps b : Matches b Eps ""
| MBol : Matches true Bol ""
| MLit b c : Matches b (Lit c) (String c "")
| MChars b items c : in_class items c = true -> Matches b (Chars items) (String c "")
| MDot b c : not_newline c = true -> Matches b Dot (String c "")
| MSeqNil b r1 r2 s : Matches b r1 "" -> Matches b r2 s -> Matches b (Seq r1 r2) s
| MSeqCons b r1 r2 c s1 s2 :
    Matches b r1 (String c s1) -> Matches false r2 s2 ->
    Matches b (Seq r1 r2) (String c s1 ++ s2)
| MAltL b r1 r2 s : Matches b r1 s -> Matches b (Alt r1 r2) s
| MAltR b r1 r2 s : Matches b r2 s -> Matches b (Alt r1 r2) s
| MStarNil b r : Matches b (Star r) ""
| MStarCons b r c s1 s2 :
    Matches b r (String c s1) -> Matches false (Star r) s2 ->
    Matches b (Star r) (String c s1 ++ s2).

(** Executable matcher by residuals.  [nullable b r]: does [r] match the
    empty string here; [deriv b c r]: what is left of [r] after reading [c]. *)
Fixpoint nullable (b : bool) (r : regex) : bool :=
  match r with
  | Never => false
  | Eps => true
  | Bol => b
  | Lit _ => false
  | Chars _ => false
  | Dot => false
  | Seq r1 r2 => nullable b r1 && nullable b r2
  | Alt r1 r2 => nullable b r1 || nullable b r2
  | Star _ => true
  end.

Fixpoint deriv (b : bool) (c : ascii) (r : regex) : regex :=
  match r with
  | Never => Never
  | Eps => Never
  | Bol => Never
  | Lit d => if Ascii.eqb c d then Eps else Never
  | Chars items => if in_class items c then Eps else Never
  | Dot => if not_newline c then Eps else Never
  | Seq r1 r2 =>
      if nullable b r1
      then Alt (Seq (deriv b c r1) r2) (deriv b c r2)
      else Seq (deriv b c r1) r2
  | Alt r1 r2 => Alt (deriv b c r1) (deriv b c r2)
  | Star r1 => Seq (deriv b c r1) (Star r1)
  end.

(** Does some prefix of [s] match [r]? *)
Fixpoint match_prefix (b : bool) (r : regex) (s : string) : bool :=
  nullable b r ||
  match s with
  | EmptyString => false
  | String c s' => match_prefix false (deriv b c r) s'
  end.

(** [re.match(pattern, s) is not None]: the match is anchored at the start
    of [s] and may stop anywhere. *)
Definition re_match (r : regex) (s : string) : bool := match_prefix true r s.

End Re.

(* ------------------------------------------------------------------ *)
(** ** Exceptions and results *)

Inductive errno : Type :=
| ENOENT | EISDIR | ENOTDIR | ENOTEMPTY | EINVAL | EBUSY.

Inductive exn : Type :=
| SystemExit (code : Z)
| CalledProcessError (returncode : Z) (cmd : list string)
| OSError (e : errno)
| ShutilError
| ValueError
| OtherError (what : string).

Inductive result (A : Type) : Type :=
| Ok (a : A)
| Raise (e : exn).
Arguments Ok {A} a.
Arguments Raise {A} e.

(* ------------------------------------------------------------------ *)
(** ** The classifier *)

(** The fields of [urllib.parse.ParseResult]. *)
Record ParseResult : Type := mkParseResult {
  scheme : string;
  netloc : string;
  path : string;
  params : string;
  query : string;
  fragment : string
}.

Definition string_in (s : string) (xs : list string) : bool :=
  existsb (String.eqb s) xs.

Section Classifier.

(** [urlparse] is the library parser: it returns a [ParseResult] or raises. *)
Variable urlparse : string -> result ParseResult.

(** def is_url(s): try: ... return result.scheme in (...) except: return False *)
Definition is_url (s : string) : result bool :=
  match urlparse s with
  | Ok r => Ok (string_in (scheme r) ["http"; "https"; "ftp"])
  | Raise _ => Ok false
  end.

End Classifier.

(** [[a-zA-Z0-9_.-]] *)
Definition host_class : list Re.class_item :=
  [Re.Span "a" "z"; Re.Span "A" "Z"; Re.Span "0" "9";
   Re.One "_"; Re.One "."; Re.One "-"].

(** r'^(?:[a-zA-Z0-9_.-]+@)?[a-zA-Z0-9_.-]+:.+' *)
Definition remote_path_re : Re.regex :=
  Re.Seq Re.Bol
   (Re.Seq (Re.Opt (Re.Seq (Re.Plus (Re.Chars host_class)) (Re.Lit "@")))
     (Re.Seq (Re.Plus (Re.Chars host_class))
       (Re.Seq (Re.Lit ":") (Re.Plus Re.Dot)))).

(** def is_remote_path(s): return re.match(..., s) is not None *)
Definition is_remote_path (s : string) : bool := Re.re_match remote_path_re s.

(* ------------------------------------------------------------------ *)
(** ** Paths ([pathlib.PurePosixPath]) *)

Fixpoint split_on (sep : ascii) (s : string) : list string :=
  match s with
  | EmptyString => [EmptyString]
  | String c s' =>
      if Ascii.eqb c sep then EmptyString :: split_on sep s'
      else match split_on sep s' with
           | h :: t => String c h :: t
           | [] => [String c EmptyString]
           end
  end.

(** A path is its anchor ([""] when relative, ["/"] or ["//"]) and the names
    after it; empty names and ["."] are dropped when a path is built, [".."]
    is kept. *)
Record Path : Type := mkPath {
  anchor : string;
  names : list string
}.

Definition anchor_of (s : string) : string :=
  match s with
  | String "/" (String "/" (String "/" _)) => "/"
  | String "/" (String "/" _) => "//"
  | String "/" _ => "/"
  | _ => ""
  end.

Definition keep_name (n : string) : bool :=
  negb (String.eqb n "") && negb (String.eqb n ".").

(** [Path(s)] *)
Definition Path_of (s : string) : Path :=
  mkPath (anchor_of s) (filter keep_name (split_on "/" s)).

(** [str(p)] *)
Definition Path_str (p : Path) : string :=
  match names p with
  | [] => if String.eqb (anchor p) "" then "." else anchor p
  | _ :: _ => anchor p ++ join "/" (names p)
  end.

(** [p.name] *)
Definition Path_name (p : Path) : string := last (names p) "".

(** [p.parent]: the parent of an anchor or of ["."] is itself. *)
Definition Path_parent (p : Path) : Path :=
  mkPath (anchor p) (removelast (names p)).

(** [p / name], for [name] a single entry name *)
Definition Path_join (p : Path) (name : string) : Path :=
  mkPath (anchor p) (names p ++ [name]).

(* ------------------------------------------------------------------ *)
(** ** The file system *)

Inductive node : Type :=
| File (data : string)
| Dir (entries : list (string * node)).

Fixpoint assoc (n : string) (es : list (string * node)) : option node :=
  match es with
  | [] => None
  | (m, c) :: es' => if String.eqb m n then Some c else assoc n es'
  end.

(** Bind [n] to [v] in a directory listing (in place when [n] is listed, at
    the end otherwise); [None] deletes the entry. *)
Fixpoint set_entry (n : string) (v : option node) (es : list (string * node))
  : list (string * node) :=
  match es with
  | [] => match v with Some c => [(n, c)] | None => [] end
  | (m, c) :: es' =>
      if String.eqb m n
      then match v with
           | Some c' => (n, c') :: es'
           | None => set_entry n None es'
           end
      else (m, c) :: set_entry n v es'
  end.

(** The node reached from [t] along the names [p]. *)
Fixpoint lookup (t : node) (p : list string) : option node :=
  match p with
  | [] => Some t
  | n :: p' =>
      match t with
      | File _ => None
      | Dir es => match assoc n es with
                  | Some c => lookup c p'
                  | None => None
                  end
      end
  end.

(** Write ([Some c]) or delete ([None]) the entry at [p]; fails when the
    directory that should hold the entry is missing. *)
Fixpoint set_at (t : node) (p : list string) (v : option node) : option node :=
  match p with
  | [] => None
  | n :: p' =>
      match t with
      | File _ => None
      | Dir es =>
          match p' with
          | [] => Some (Dir (set_entry n v es))
          | _ :: _ =>
              match assoc n es with
              | Some c =>
                  match set_at c p' v with
                  | Some c' => Some (Dir (set_entry n (Some c') es))
                  | None => None
                  end
              | None => None
              end
          end
      end
  end.

Fixpoint height (t : node) : nat :=
  match t with
  | File _ => 0
  | Dir es => S (fold_right (fun e h => Nat.max (height (snd e)) h) 0 es)
  end.

Fixpoint is_prefix (p q : list string) : bool :=
  match p, q with
  | [], _ => true
  | a :: p', b :: q' => String.eqb a b && is_prefix p' q'
  | _ :: _, [] => false
  end.

Definition same_path (p q : list string) : bool :=
  is_prefix p q && is_prefix q p.

Definition is_Dir (t : node) : bool :=
  match t with Dir _ => true | File _ => false end.

(** rename(2) on resolved paths.  Renaming a path to itself does nothing; a
    directory may replace only an empty directory and a file only a file; a
    directory cannot be moved below itself. *)
Definition os_rename (t : node) (src dst : list string) : result node :=
  match lookup t src with
  | None => Raise (OSError ENOENT)
  | Some s =>
      if same_path src dst then Ok t
      else if is_prefix src dst then Raise (OSError EINVAL)
      else
        let move :=
          match set_at t src None with
          | Some t1 => match set_at t1 dst (Some s) with
                       | Some t2 => Ok t2
                       | None => Raise (OSError ENOENT)
                       end
          | None => Raise (OSError EBUSY)
          end in
        match lookup t dst with
        | Some (Dir (_ :: _)) =>
            Raise (OSError (if is_Dir s then ENOTEMPTY else EISDIR))
        | Some (Dir []) => if is_Dir s then move else Raise (OSError EISDIR)
        | Some (File _) => if is_Dir s then Raise (OSError ENOTDIR) else move
        | None =>
            match lookup t (removelast dst) with
            | Some (Dir _) => move
            | Some (File _) => Raise (OSError ENOTDIR)
            | None => Raise (OSError ENOENT)
            end
        end
  end.

(** unlink(2): removes a regular file, refuses a directory. *)
Definition os_unlink (t : node) (p : list string) : result node :=
  match lookup t p with
  | None => Raise (OSError ENOENT)
  | Some (Dir _) => Raise (OSError EISDIR)
  | Some (File _) =>
      match set_at t p None with
      | Some t' => Ok t'
      | None => Raise (OSError ENOENT)
      end
  end.

(* ------------------------------------------------------------------ *)
(** ** The world and the computations on it *)

Inductive event : Type :=
| EvPrint (line : string)            (* print(...) *)
| EvExec (cmd : list string)         (* subprocess.run(cmd) *)
| EvRename (src dst : Path)          (* Path.rename *)
| EvCopytree (src dst : Path)        (* shutil.copytree *)
| EvUnlink (p : string).             (* os.unlink *)

Record world : Type := mkWorld {
  root : node;                       (* the file system *)
  cwd : list string;                 (* the working directory, from the root *)
  trace : list event                 (* what the process did, oldest first *)
}.

Definition with_root (w : world) (t : node) : world :=
  mkWorld t (cwd w) (trace w).

Definition log (w : world) (e : event) : world :=
  mkWorld (root w) (cwd w) (trace w ++ [e]).

(** The names from the root to what [p] names.  A name [..] is not
    interpreted: it is looked up like any other name and found in no
    directory, so a path written with [..] names nothing here; what follows
    is about paths written without it. *)
Definition resolve (w : world) (p : Path) : list string :=
  if String.eqb (anchor p) "" then cwd w ++ names p else names p.

Definition M (A : Type) : Type := world -> result A * world.

Definition ret {A} (a : A) : M A := fun w => (Ok a, w).

Definition raise {A} (e : exn) : M A := fun w => (Raise e, w).

Definition bind {A B} (m : M A) (k : A -> M B) : M B :=
  fun w => match m w with
           | (Ok a, w') => k a w'
           | (Raise e, w') => (Raise e, w')
           end.

Notation "x <- m ;; k" := (bind m (fun x => k))
  (at level 61, m at next level, right associativity).
Notation "m ;; k" := (bind m (fun _ => k))
  (at level 61, right associativity).

(** try: body except <any> as e: handler e *)
Definition try_except {A} (body : M A) (handler : exn -> M A) : M A :=
  fun w => match body w with
           | (Ok a, w') => (Ok a, w')
           | (Raise e, w') => handler e w'
           end.

(** try: body finally: cleanup.  An exception raised by [cleanup] replaces
    whatever [body] returned or raised. *)
Definition try_finally {A} (body : M A) (cleanup : M unit) : M A :=
  fun w => match body w with
           | (r, w') => match cleanup w' with
                        | (Ok _, w'') => (r, w'')
                        | (Raise e, w'') => (Raise e, w'')
                        end
           end.

Definition lift {A} (r : result A) : M A := fun w => (r, w).

Definition print (line : string) : M unit :=
  fun w => (Ok tt, log w (EvPrint line)).

(** [sys.exit(code)] *)
Definition sys_exit {A} (code : Z) : M A := raise (SystemExit code).

(** The exit status with which the interpreter leaves [main]: 0 after a
    normal return, 1 after an uncaught exception, and after [sys.exit(code)]
    the low eight bits of [code], which is all of an exit status that the
    parent of the process gets to see ([code] within the range of a C [long],
    as the return code of a child process is). *)
Definition exit_status {A} (r : result A) : Z :=
  match r with
  | Ok _ => 0
  | Raise (SystemExit code) => code mod 256
  | Raise _ => 1
  end.

(** [p.is_dir()], [p.is_file()]: false when nothing is there *)
Definition is_dir (p : Path) (w : world) : bool :=
  match lookup (root w) (resolve w p) with
  | Some (Dir _) => true
  | _ => false
  end.

Definition is_file (p : Path) (w : world) : bool :=
  match lookup (root w) (resolve w p) with
  | Some (File _) => true
  | _ => false
  end.

(** [list(p.iterdir())] *)
Definition iterdir (p : Path) : M (list Path) :=
  fun w => match lookup (root w) (resolve w p) with
           | Some (Dir es) => (Ok (map (fun e => Path_join p (fst e)) es), w)
           | Some (File _) => (Raise (OSError ENOTDIR), w)
           | None => (Raise (OSError ENOENT), w)
           end.

(** [src.rename(dst)]; returns the new path (Python 3.8 and later). *)
Definition Path_rename (src dst : Path) : M Path :=
  fun w =>
    let w1 := log w (EvRename src dst) in
    match os_rename (root w1) (resolve w1 src) (resolve w1 dst) with
    | Ok t => (Ok dst, with_root w1 t)
    | Raise e => (Raise e, w1)
    end.

(** [os.unlink(p)] *)
Definition unlink (p : string) : M unit :=
  fun w =>
    let w1 := log w (EvUnlink p) in
    match os_unlink (root w1) (resolve w1 (Path_of p)) with
    | Ok t => (Ok tt, with_root w1 t)
    | Raise e => (Raise e, w1)
    end.

(* ------------------------------------------------------------------ *)
(** ** What lies outside the repository *)

Inductive proc_outcome : Type :=
| Exited (code : Z)                  (* the child ran and exited *)
| NotStarted (e : errno).            (* the program could not be executed *)

Record Env : Type := mkEnv {
  (** [urllib.parse.urlparse] *)
  urlparse : string -> result ParseResult;
  (** [tempfile.mktemp()]: a fresh path name *)
  mktemp : world -> string;
  (** running a child process to completion: how it ended and the file
      system it left *)
  spawn : list string -> world -> proc_outcome * node;
  (** [shutil.copytree(src, dst, dirs_exist_ok=True)] on resolved paths *)
  copytree : node -> list string -> list string -> result unit * node
}.

(* ------------------------------------------------------------------ *)
(** ** The program *)

Section Program.

Variable E : Env.

(** [subprocess.run(command, check=True)] *)
Definition subprocess_run (command : list string) : M unit :=
  fun w =>
    let w1 := log w (EvExec command) in
    match spawn E command w1 with
    | (Exited code, t) =>
        if (code =? 0)%Z then (Ok tt, with_root w1 t)
        else (Raise (CalledProcessError code command), with_root w1 t)
    | (NotStarted e, t) => (Raise (OSError e), with_root w1 t)
    end.

(** def execute_command(command) *)
Definition execute_command (command : list string) : M unit :=
  print ("Executing command: " ++ join " " command) ;;
  try_except (subprocess_run command)
    (fun e =>
       match e with
       | CalledProcessError returncode _ =>
           print ("Error executing command: " ++ join " " command) ;;
           sys_exit returncode
       | _ => raise e
       end).

(** def download_http(src, dst, extra_opts) *)
Definition download_http (src dst : string) (extra_opts : list string) : M unit :=
  fun w =>
    let dst_path := Path_of dst in
    let command :=
      if is_dir dst_path w
      then (["curl"; "-OJL"; src] ++ ["--output-dir"; Path_str dst_path] ++ extra_opts)%list
      else (["curl"; "-L"; src; "-o"; Path_str dst_path] ++ extra_opts)%list in
    execute_command command w.

(** def copy_remote(src, dst, extra_opts) *)
Definition copy_remote (src dst : string) (extra_opts : list string) : M unit :=
  let command := (["rsync"; "-a"; "--info=progress2"] ++ extra_opts ++ [src; dst])%list in
  execute_command command.

(** def copy_local(src, dst, extra_opts) *)
Definition copy_local (src dst : string) (extra_opts : list string) : M unit :=
  let command := (["rsync"; "-a"] ++ extra_opts ++ [src; dst])%list in
  execute_command command.

(** def handle_extract(src, dst) *)
Definition handle_extract (src dst : string) : M unit :=
  fun w =>
    let src_path := Path_of src in
    if negb (is_file src_path w)
    then (print "Error: copied file is not valid" ;; sys_exit 1) w
    else
      let command := ["atool"; Path_str src_path; "--extract-to"; dst] in
      execute_command command w.

(** [shutil.copytree(src, dst, dirs_exist_ok=True)] *)
Definition shutil_copytree (src dst : Path) : M unit :=
  fun w =>
    let w1 := log w (EvCopytree src dst) in
    match copytree E (root w1) (resolve w1 src) (resolve w1 dst) with
    | (r, t) => (r, with_root w1 t)
    end.

(** The [while] loop of [handle_spill]; [fuel] bounds the number of times
    the body runs, [None] means the bound was too small. *)
Fixpoint spill_loop (fuel : nat) (spill_dir path : Path) (w : world)
  : option (result unit * world) :=
  if is_dir path w then
    match fuel with
    | O => None
    | S fuel' =>
        match iterdir path w with
        | (Raise e, w1) => Some (Raise e, w1)
        | (Ok contents, w1) =>
            if negb (Nat.eqb (List.length contents) 1) then
              (* copytree, then break *)
              Some (shutil_copytree path spill_dir w1)
            else
              match contents with
              | content :: _ =>
                  match Path_rename content
                          (Path_join spill_dir (Path_name content)) w1 with
                  | (Ok path', w2) => spill_loop fuel' spill_dir path' w2
                  | (Raise e, w2) => Some (Raise e, w2)
                  end
              | [] => Some (Raise (OtherError "IndexError"), w1)
              end
        end
    end
  else Some (Ok tt, w).

(** The height of what [p] names, 0 when nothing is there. *)
Definition height_at (p : Path) (w : world) : nat :=
  match lookup (root w) (resolve w p) with
  | Some t => height t
  | None => 0
  end.

(** def handle_spill(dst).  The loop is run with a number of rounds that
    [spill_loop_enough] shows is never exhausted. *)
Definition handle_spill (dst : string) : M unit :=
  fun w =>
    let path := Path_of dst in
    let spill_dir := Path_parent path in
    match spill_loop (S (height_at path w)) spill_dir path w with
    | Some r => r
    | None => (Raise (OtherError "spill_loop: out of rounds"), w)
    end.

(** def main().  [argv0] is [sys.argv[0]]; [src], [dst] and [extra_opts]
    are the parsed arguments ([dst] is ["./"] when omitted). *)
Definition main (argv0 src dst : string) (extra_opts : list string) : M unit :=
  let cmd_name := Path_name (Path_of argv0) in
  let should_extract := startswith "cpx" cmd_name in
  let should_dig := endswith "d" cmd_name in
  fun w =>
    let tmp_archive := if should_extract then Some (mktemp E w) else None in
    let actual_dest := dst in
    let dst := match tmp_archive with Some t => t | None => dst end in
    try_finally
      ( u <- lift (is_url (urlparse E) src) ;;
        (if u then download_http src dst extra_opts
         else if is_remote_path src || is_remote_path dst
              then copy_remote src dst extra_opts
              else copy_local src dst extra_opts) ;;
        dst' <- match tmp_archive with
                | Some t => handle_extract t actual_dest ;; ret actual_dest
                | None => ret dst
                end ;;
        if should_dig then handle_spill dst' else ret tt )
      ( match tmp_archive with
        | Some t => unlink t
        | None => ret tt
        end ) w.

End Program.

(* ------------------------------------------------------------------ *)
(** ** A reference environment

    One inhabitant of [Env], used to run the program on concrete inputs.  The
    general theorems below quantify over every [Env]. *)

Module Ref.

(** The part of [urllib.parse.urlsplit] that finds the scheme and the
    network location (CPython 3.12): leading C0 controls and spaces are
    stripped, tab, CR and LF are removed, the text before the first [:] is a
    scheme when it starts with a letter and consists of scheme characters,
    and an unbalanced bracket in the network location raises [ValueError]. *)
Definition is_alpha (c : ascii) : bool :=
  Re.in_class [Re.Span "a" "z"; Re.Span "A" "Z"] c.

Definition is_scheme_char (c : ascii) : bool :=
  Re.in_class [Re.Span "a" "z"; Re.Span "A" "Z"; Re.Span "0" "9";
               Re.One "+"; Re.One "-"; Re.One "."] c.

Definition lower (c : ascii) : ascii :=
  if Re.in_item c (Re.Span "A" "Z")
  then ascii_of_N (N_of_ascii c + 32) else c.

Fixpoint map_string (f : ascii -> ascii) (s : string) : string :=
  match s with
  | EmptyString => EmptyString
  | String c s' => String (f c) (map_string f s')
  end.

Fixpoint filter_string (p : ascii -> bool) (s : string) : string :=
  match s with
  | EmptyString => EmptyString
  | String c s' => if p c then String c (filter_string p s') else filter_string p s'
  end.

Fixpoint lstrip (p : ascii -> bool) (s : string) : string :=
  match s with
  | EmptyString => EmptyString
  | String c s' => if p c then lstrip p s' else s
  end.

(** Cut [s] before the first character satisfying [p]. *)
Fixpoint break_at (p : ascii -> bool) (s : string) : string * option string :=
  match s with
  | EmptyString => (EmptyString, None)
  | String c s' =>
      if p c then (EmptyString, Some s')
      else let (a, b) := break_at p s' in (String c a, b)
  end.

Fixpoint span_until (p : ascii -> bool) (s : string) : string * string :=
  match s with
  | EmptyString => (EmptyString, EmptyString)
  | String c s' =>
      if p c then (EmptyString, s)
      else let (a, b) := span_until p s' in (String c a, b)
  end.

Definition is_one_of (cs : string) (c : ascii) : bool := has_char c cs.

Definition urlparse (url : string) : result ParseResult :=
  let url := lstrip (fun c => (N_of_ascii c <=? 32)%N) url in
  let url := filter_string
               (fun c => negb (is_one_of (String "009" (String "010" (String "013" ""))) c))
               url in
  let '(sch, rest) :=
    match break_at (Ascii.eqb ":") url with
    | (String c pre, Some post) =>
        if is_alpha c && all_chars is_scheme_char (String c pre)
        then (map_string lower (String c pre), post)
        else ("", url)
    | _ => ("", url)
    end in
  let '(loc, rest) :=
    match rest with
    | String "/" (String "/" r) => span_until (is_one_of "/?#") r
    | _ => ("", rest)
    end in
  if xorb (has_char "[" loc) (has_char "]" loc) then Raise ValueError
  else
    let '(rest, frag) := break_at (Ascii.eqb "#") rest in
    let '(pth, qry) := break_at (Ascii.eqb "?") rest in
    Ok (mkParseResult sch loc pth ""
          (match qry with Some q => q | None => "" end)
          (match frag with Some f => f | None => "" end)).

Definition mktemp (w : world) : string := "/tmp/tmpk3v9x2qa".

(** [shutil.copytree(..., dirs_exist_ok=True)] on a snapshot of the source:
    directories are merged, a file replaces a file of the same name and is
    copied into a directory of the same name, a directory cannot replace a
    file.  The flag is [false] when some entry could not be copied.  This
    agrees with the library as long as no copied entry lands inside the tree
    that is being read. *)
Definition merge_with
    (copy : string -> node -> option node -> option node * bool)
  : list (string * node) -> list (string * node) -> list (string * node) * bool :=
  fix merge (es des : list (string * node)) : list (string * node) * bool :=
    match es with
    | [] => (des, true)
    | (n, c) :: es' =>
        match copy n c (assoc n des) with
        | (c', ok1) =>
            match merge es' (set_entry n c' des) with
            | (des', ok2) => (des', ok1 && ok2)
            end
        end
    end.

Fixpoint copy_onto (name : string) (s : node) (d : option node) : option node * bool :=
  match s with
  | File data =>
      match d with
      | Some (Dir des) =>
          match assoc name des with
          | Some (Dir _) => (d, false)
          | _ => (Some (Dir (set_entry name (Some (File data)) des)), true)
          end
      | _ => (Some (File data), true)
      end
  | Dir es =>
      match d with
      | Some (File _) => (d, false)
      | Some (Dir des) =>
          let (des', ok) := merge_with copy_onto es des in (Some (Dir des'), ok)
      | None =>
          let (des', ok) := merge_with copy_onto es [] in (Some (Dir des'), ok)
      end
  end.

Definition copytree (t : node) (src dst : list string) : result unit * node :=
  match lookup t src with
  | Some (Dir es) =>
      match copy_onto "" (Dir es) (lookup t dst) with
      | (Some d', ok) =>
          let t' := match dst with
                    | [] => Some d'
                    | _ :: _ => set_at t dst (Some d')
                    end in
          match t' with
          | Some t' => (if ok then Ok tt else Raise ShutilError, t')
          | None => (Raise (OSError ENOENT), t)
          end
      | (None, _) => (Raise ShutilError, t)
      end
  | Some (File _) => (Raise (OSError ENOTDIR), t)
  | None => (Raise (OSError ENOENT), t)
  end.

(** A stand-in for the child processes.  [rsync ... SRC DST] exits with 23
    when [SRC] does not exist; it copies a file to [DST], or below [DST]
    when that is a directory; it copies the contents of a directory given
    with a trailing slash into [DST], and a directory given without one
    below [DST], creating [DST] when it is missing.  [atool ARCHIVE
    --extract-to DIR] unpacks a one-file archive into [DIR]; [curl] cannot
    reach any host. *)
Definition run (cmd : list string) (w : world) : proc_outcome * node :=
  match cmd with
  | "rsync" :: args =>
      let dst := Path_of (last args "") in
      let raw_src := last (removelast args) "" in
      let src := Path_of raw_src in
      match lookup (root w) (resolve w src) with
      | None => (Exited 23, root w)
      | Some s =>
          let below := Path_join dst (Path_name src) in
          let '(target, content) :=
            match s with
            | File _ => (if is_dir dst w then below else dst, Some s)
            | Dir _ =>
                if endswith "/" raw_src
                then (dst, fst (copy_onto "" s (lookup (root w) (resolve w dst))))
                else if is_dir dst w then (below, Some s)
                else (dst, Some (Dir [(Path_name src, s)]))
            end in
          match set_at (root w) (resolve w target) content with
          | Some t => (Exited 0, t)
          | None => (Exited 11, root w)
          end
      end
  | ["atool"; archive; "--extract-to"; dir] =>
      match lookup (root w) (resolve w (Path_of archive)) with
      | Some (File data) =>
          match set_at (root w) (resolve w (Path_join (Path_of dir) "payload"))
                  (Some (File data)) with
          | Some t => (Exited 0, t)
          | None => (Exited 2, root w)
          end
      | _ => (Exited 2, root w)
      end
  | "curl" :: _ => (Exited 6, root w)
  | _ => (NotStarted ENOENT, root w)
  end.

Definition env : Env := mkEnv urlparse mktemp run copytree.

(** The same, with every child killed by signal 9 before it has done
    anything: [subprocess] reports the return code -9. *)
Definition killed : Env :=
  mkEnv urlparse mktemp (fun _ w => (Exited (-9), root w)) copytree.

(** A home directory with a file, a directory and an empty [/tmp]. *)
Definition home : node :=
  Dir [("notes.txt", File "remember the milk");
       ("data", Dir [("a.txt", File "A"); ("b.txt", File "B")]);
       ("out", Dir [])].

Definition w0 : world :=
  mkWorld (Dir [("home", home); ("tmp", Dir [])]) ["home"] [].

End Ref.

(* ------------------------------------------------------------------ *)
(** ** Vocabulary for the statements

    Nothing here is run by the program: these definitions name what the
    specification talks about. *)

(** The child processes a run has started, oldest first. *)
Definition executed (w : world) : list (list string) :=
  flat_map (fun e => match e with EvExec cmd => [cmd] | _ => [] end) (trace w).

(** The lines a run has printed, oldest first. *)
Definition printed (w : world) : list string :=
  flat_map (fun e => match e with EvPrint l => [l] | _ => [] end) (trace w).

(** The world in which the child process for [cmd] starts. *)
Definition started (w : world) (cmd : list string) : world :=
  log (log w (EvPrint ("Executing command: " ++ join " " cmd))) (EvExec cmd).

(** The transport decision of the specification: the first matching rule. *)
Inductive transport : Type := HttpDownload | RemoteSync | LocalSync.

Definition select_transport (src_is_url src_is_remote dst_is_remote : bool)
  : transport :=
  if src_is_url then HttpDownload
  else if src_is_remote || dst_is_remote then RemoteSync
  else LocalSync.

Definition run_transport (E : Env) (t : transport)
  : string -> string -> list string -> M unit :=
  match t with
  | HttpDownload => download_http E
  | RemoteSync => copy_remote E
  | LocalSync => copy_local E
  end.

(** The two modes read off the name the program is called by. *)
Definition should_extract (argv0 : string) : bool :=
  startswith "cpx" (Path_name (Path_of argv0)).

Definition should_dig (argv0 : string) : bool :=
  endswith "d" (Path_name (Path_of argv0)).

(** The temporary archive of a run, if the run extracts. *)
Definition tmp_archive_of (E : Env) (argv0 : string) (w : world) : option string :=
  if should_extract argv0 then Some (mktemp E w) else None.

(** The destination handed to the transport: the temporary archive when the
    run extracts, the destination argument otherwise. *)
Definition transport_dst (E : Env) (argv0 dst : string) (w : world) : string :=
  match tmp_archive_of E argv0 w with Some t => t | None => dst end.

(** The transport the decision rule picks for a run. *)
Definition chosen_transport (E : Env) (argv0 src dst : string) (w : world)
  : transport :=
  select_transport
    (match is_url (urlparse E) src with Ok b => b | Raise _ => false end)
    (is_remote_path src)
    (is_remote_path (transport_dst E argv0 dst w)).

(** What [main] does after the transport, and on the way out. *)
Definition after_transport (E : Env) (argv0 dst : string) (tmp : option string)
  : M unit :=
  dst' <- match tmp with
          | Some t => handle_extract E t dst ;; ret dst
          | None => ret dst
          end ;;
  if should_dig argv0 then handle_spill E dst' else ret tt.

Definition cleanup (tmp : option string) : M unit :=
  match tmp with
  | Some t => unlink t
  | None => ret tt
  end.

Definition is_atool (cmd : list string) : Prop :=
  exists archive dir, cmd = ["atool"; archive; "--extract-to"; dir].

(** The string shapes of the specification's remote paths. *)
Definition host_char (c : ascii) : bool := Re.in_class host_class c.

Definition token (t : string) : Prop :=
  t <> "" /\ all_chars host_char t = true.

Definition remote_form (user : option string) (host path : string) : string :=
  match user with
  | Some u => u ++ "@" ++ host ++ ":" ++ path
  | None => host ++ ":" ++ path
  end.

(** Example trees for the spill loop. *)
Module Ex.

Definition two_files : node := Dir [("f1", File "1"); ("f2", File "2")].

(** [out/a/b/{f1,f2}], three directory levels, next to an unrelated file
    and an older [f1]. *)
Definition nested : world :=
  mkWorld
    (Dir [("home", Dir [("keep.txt", File "k");
                        ("f1", File "old");
                        ("out", Dir [("a", Dir [("b", two_files)])])])])
    ["home"] [].

(** [out/a/b/c/{f1,f2}]: one more single-entry level. *)
Definition deeper : world :=
  mkWorld
    (Dir [("home", Dir [("out", Dir [("a", Dir [("b", Dir [("c", two_files)])])])])])
    ["home"] [].

(** [pkg/pkg/{f1,f2}]: the only entry bears the name of the destination. *)
Definition same_name : world :=
  mkWorld (Dir [("home", Dir [("pkg", Dir [("pkg", two_files)])])]) ["home"] [].

End Ex.

(* ------------------------------------------------------------------ *)
(** ** Chains of single-entry directories *)

(** [chain [n1; ...; nk] b] is a directory whose only entry [n1] is a
    directory whose only entry is [n2], and so on down to [b]. *)
Fixpoint chain (ns : list string) (bottom : node) : node :=
  match ns with
  | [] => bottom
  | n :: ns' => Dir [(n, chain ns' bottom)]
  end.

(** The renames by which the spill loop walks down such a chain, starting at
    [cur]: every entry goes to [spill_dir] and becomes the current path. *)
Fixpoint moves (spill_dir cur : Path) (ns : list string) : list event :=
  match ns with
  | [] => []
  | n :: ns' =>
      EvRename (Path_join cur n) (Path_join spill_dir n)
      :: moves spill_dir (Path_join spill_dir n) ns'
  end.

(** Where the walk arrives. *)
Definition arrival (spill_dir cur : Path) (ns : list string) : Path :=
  match ns with
  | [] => cur
  | _ :: _ => Path_join spill_dir (last ns "")
  end.

(* ------------------------------------------------------------------ *)
(** ** Strings: basic facts *)

Lemma append_nil_r (s : string) : s ++ "" = s.
Proof. induction s as [|c s IH]; simpl; [reflexivity | now rewrite IH]. Qed.

Lemma append_assoc (s t u : string) : (s ++ t) ++ u = s ++ (t ++ u).
Proof. induction s as [|c s IH]; simpl; [reflexivity | now rewrite IH]. Qed.

(* ------------------------------------------------------------------ *)
(** ** The matcher computes the declarative meaning *)

Module ReFacts.
Import Re.

Lemma nullable_sound b r : nullable b r = true -> Matches b r "".
Proof.
  induction r; simpl; intro H; try discriminate.
  - constructor.
  - subst b. constructor.
  - apply andb_true_iff in H as [H1 H2]. apply MSeqNil; auto.
  - apply orb_true_iff in H as [H|H]; [apply MAltL | apply MAltR]; auto.
  - constructor.
Qed.

Lemma nullable_complete b r s : Matches b r s -> s = "" -> nullable b r = true.
Proof.
  induction 1; intro E; simpl; try discriminate; try reflexivity.
  - rewrite IHMatches1, IHMatches2; auto.
  - rewrite IHMatches; auto.
  - rewrite IHMatches; auto. apply orb_true_r.
Qed.

Lemma nullable_spec b r : nullable b r = true <-> Matches b r "".
Proof.
  split; [apply nullable_sound | intro H; eapply nullable_complete; eauto].
Qed.

(** Sequencing two matches, the second one away from the start. *)
Lemma Matches_seq_later r1 r2 s1 s2 :
  Matches false r1 s1 -> Matches false r2 s2 -> Matches false (Seq r1 r2) (s1 ++ s2).
Proof.
  intros H1 H2. destruct s1 as [|c s1]; simpl.
  - apply MSeqNil; assumption.
  - apply (MSeqCons false r1 r2 c s1 s2); assumption.
Qed.

Lemma deriv_sound r : forall b c s,
  Matches false (deriv b c r) s -> Matches b r (String c s).
Proof.
  induction r as [ | | | d | items | | r1 IH1 r2 IH2 | r1 IH1 r2 IH2 | r IH];
    intros b c s H; simpl in H.
  - inversion H.
  - inversion H.
  - inversion H.
  - destruct (Ascii.eqb_spec c d); [subst | inversion H].
    inversion H; subst. constructor.
  - destruct (in_class items c) eqn:Ec; [| inversion H].
    inversion H; subst. constructor. assumption.
  - destruct (not_newline c) eqn:Ec; [| inversion H].
    inversion H; subst. constructor. assumption.
  - assert (Hseq : forall s, Matches false (Seq (deriv b c r1) r2) s ->
                             Matches b (Seq r1 r2) (String c s)).
    { clear H. intros s0 H. inversion H; subst.
      - apply (MSeqCons b r1 r2 c "" s0); auto.
      - apply (MSeqCons b r1 r2 c (String c0 s1) s2); auto. }
    destruct (nullable b r1) eqn:En.
    + inversion H; subst.
      * apply Hseq; assumption.
      * apply MSeqNil; [apply nullable_sound; assumption | auto].
    + apply Hseq; assumption.
  - inversion H; subst; [apply MAltL | apply MAltR]; auto.
  - inversion H; subst.
    + apply (MStarCons b r c "" s); auto.
    + apply (MStarCons b r c (String c0 s1) s2); auto.
Qed.

Lemma deriv_complete b r s0 : Matches b r s0 ->
  forall c s, s0 = String c s -> Matches false (deriv b c r) s.
Proof.
  induction 1; intros d t E; simpl; try discriminate.
  - injection E as -> <-. rewrite Ascii.eqb_refl. constructor.
  - injection E as -> <-. rewrite H. constructor.
  - injection E as -> <-. rewrite H. constructor.
  - rewrite (nullable_complete _ _ _ H eq_refl). apply MAltR. eauto.
  - simpl in E. injection E as -> <-.
    assert (Hs : Matches false (Seq (deriv b d r1) r2) (s1 ++ s2)).
    { apply Matches_seq_later; eauto. }
    destruct (nullable b r1); [apply MAltL |]; assumption.
  - apply MAltL. eauto.
  - apply MAltR. eauto.
  - simpl in E. injection E as -> <-.
    apply Matches_seq_later; eauto.
Qed.

Lemma deriv_spec b c r s :
  Matches false (deriv b c r) s <-> Matches b r (String c s).
Proof.
  split; [apply deriv_sound | intro H; eapply deriv_complete; eauto].
Qed.

(** [match_prefix] holds exactly when a prefix of the subject matches. *)
Lemma match_prefix_spec s : forall b r,
  match_prefix b r s = true <-> exists p q, s = p ++ q /\ Matches b r p.
Proof.
  induction s as [|c s IH]; intros b r; simpl.
  - rewrite orb_false_r, nullable_spec. split.
    + intro H. exists "", "". auto.
    + intros (p & q & E & H). destruct p; [assumption | discriminate].
  - rewrite orb_true_iff, nullable_spec, IH. split.
    + intros [H | (p & q & E & H)].
      * exists "", (String c s). auto.
      * exists (String c p), q. split; [simpl; congruence | apply deriv_sound; assumption].
    + intros (p & q & E & H). destruct p as [|c' p].
      * left; assumption.
      * right. simpl in E. injection E as <- ->.
        exists p, q. split; [reflexivity | apply deriv_spec; assumption].
Qed.

Lemma re_match_spec r s :
  re_match r s = true <-> exists p q, s = p ++ q /\ Matches true r p.
Proof. apply match_prefix_spec. Qed.

(** One or more characters of a class. *)
Lemma Matches_star_class b items s :
  all_chars (in_class items) s = true -> Matches b (Star (Chars items)) s.
Proof.
  revert b. induction s as [|c s IH]; intros b H; simpl in H.
  - constructor.
  - apply andb_true_iff in H as [Hc Hs].
    apply (MStarCons b (Chars items) c "" s); [constructor; assumption | auto].
Qed.

Lemma Matches_plus_class b items s :
  s <> "" -> all_chars (in_class items) s = true -> Matches b (Plus (Chars items)) s.
Proof.
  intros Hne H. destruct s as [|c s]; [congruence |]. simpl in H.
  apply andb_true_iff in H as [Hc Hs].
  apply (MSeqCons b (Chars items) (Star (Chars items)) c "" s).
  - constructor; assumption.
  - apply Matches_star_class; assumption.
Qed.

End ReFacts.

(* ------------------------------------------------------------------ *)
(** ** The file system: lookups after updates *)

Lemma assoc_set_entry_same n v es : assoc n (set_entry n v es) = v.
Proof.
  induction es as [|[m c] es IH]; simpl.
  - destruct v; simpl; [rewrite String.eqb_refl |]; reflexivity.
  - destruct (String.eqb m n) eqn:E.
    + destruct v; simpl; [rewrite String.eqb_refl; reflexivity | exact IH].
    + simpl. rewrite E. exact IH.
Qed.

Lemma assoc_set_entry_other m n v es :
  m <> n -> assoc m (set_entry n v es) = assoc m es.
Proof.
  intro Hne. induction es as [|[k c] es IH]; simpl.
  - destruct v; simpl; [| reflexivity].
    destruct (String.eqb_spec n m); [congruence | reflexivity].
  - destruct (String.eqb_spec k n) as [->|Hk].
    + destruct (String.eqb_spec n m); [congruence |].
      destruct v; simpl; [| exact IH].
      destruct (String.eqb_spec n m); [congruence | reflexivity].
    + simpl. destruct (String.eqb_spec k m); [reflexivity | exact IH].
Qed.

Lemma lookup_app t p q :
  lookup t (p ++ q) = match lookup t p with
                      | Some c => lookup c q
                      | None => None
                      end.
Proof.
  revert t. induction p as [|n p IH]; intro t; simpl; [reflexivity |].
  destruct t as [d|es]; [reflexivity |].
  destruct (assoc n es); [apply IH | reflexivity].
Qed.

Lemma lookup_child t p n es :
  lookup t p = Some (Dir es) -> lookup t (p ++ [n]) = assoc n es.
Proof.
  intro H. rewrite lookup_app, H. simpl. destruct (assoc n es); reflexivity.
Qed.

(** After a successful write the entry reads back. *)
Lemma lookup_set_at_same p : forall t v t',
  set_at t p v = Some t' -> lookup t' p = v.
Proof.
  induction p as [|n p IH]; intros t v t' H; simpl in H; [discriminate |].
  destruct t as [d|es]; [discriminate |].
  destruct p as [|n' p'].
  - injection H as <-. simpl. rewrite assoc_set_entry_same.
    destruct v; reflexivity.
  - destruct (assoc n es) as [c|] eqn:Ea; [| discriminate].
    destruct (set_at c (n' :: p') v) as [c'|] eqn:Es; [| discriminate].
    injection H as <-.
    change (lookup (Dir (set_entry n (Some c') es)) (n :: n' :: p'))
      with (match assoc n (set_entry n (Some c') es) with
            | Some c0 => lookup c0 (n' :: p')
            | None => None
            end).
    rewrite assoc_set_entry_same. eapply IH; eassumption.
Qed.

Lemma height_child n c es : assoc n es = Some c -> height c < height (Dir es).
Proof.
  simpl. induction es as [|[m d] es IH]; simpl; intro H; [discriminate |].
  destruct (String.eqb m n).
  - injection H as ->. lia.
  - specialize (IH H). lia.
Qed.

Lemma is_prefix_refl p : is_prefix p p = true.
Proof. induction p; simpl; [| rewrite String.eqb_refl]; auto. Qed.

Lemma same_path_eq p q : same_path p q = true <-> p = q.
Proof.
  unfold same_path. split.
  - revert q. induction p as [|a p IH]; intros [|b q] H; simpl in H;
      try reflexivity; try discriminate.
    apply andb_true_iff in H as [H1 H2].
    apply andb_true_iff in H1 as [Hab Hp].
    apply andb_true_iff in H2 as [_ Hq].
    apply String.eqb_eq in Hab. subst b. f_equal. apply IH.
    rewrite Hp, Hq. reflexivity.
  - intros <-. rewrite is_prefix_refl. reflexivity.
Qed.

(** What was at [src] is at [dst] after a successful rename. *)
Lemma os_rename_moves t src dst t' s :
  os_rename t src dst = Ok t' -> lookup t src = Some s -> lookup t' dst = Some s.
Proof.
  unfold os_rename. intros H Hs. rewrite Hs in H.
  destruct (same_path src dst) eqn:Esame.
  - apply same_path_eq in Esame. injection H as <-. congruence.
  - destruct (is_prefix src dst); [discriminate |].
    assert (Hmove : match set_at t src None with
                    | Some t1 => match set_at t1 dst (Some s) with
                                 | Some t2 => Ok t2
                                 | None => Raise (OSError ENOENT)
                                 end
                    | None => Raise (OSError EBUSY)
                    end = Ok t' -> lookup t' dst = Some s).
    { clear H. intro H.
      destruct (set_at t src None) as [t1|]; [| discriminate].
      destruct (set_at t1 dst (Some s)) as [t2|] eqn:E2; [| discriminate].
      injection H as <-. eapply lookup_set_at_same; eassumption. }
    destruct (lookup t dst) as [[d|[|e es]]|].
    + destruct (is_Dir s); [discriminate | auto].
    + destruct (is_Dir s); [auto | discriminate].
    + discriminate.
    + destruct (lookup t (removelast dst)) as [[d|es]|]; try discriminate; auto.
Qed.

(** [os_unlink] never leaves a regular file behind at the path. *)
Lemma os_unlink_removes t p t' :
  os_unlink t p = Ok t' -> lookup t' p = None.
Proof.
  unfold os_unlink. intro H.
  destruct (lookup t p) as [[d|es]|]; try discriminate.
  destruct (set_at t p None) as [t1|] eqn:E; [| discriminate].
  injection H as <-. eapply lookup_set_at_same; eassumption.
Qed.

(* ------------------------------------------------------------------ *)
(** ** When rename(2) goes through and when it is refused *)

Lemma is_prefix_length p : forall q, is_prefix p q = true -> length p <= length q.
Proof.
  induction p as [|a p IH]; intros [|b q] H; simpl in *; try lia; try discriminate.
  apply andb_true_iff in H as [_ H]. specialize (IH _ H). lia.
Qed.

Lemma is_prefix_same_length p : forall q,
  is_prefix p q = true -> length p = length q -> p = q.
Proof.
  induction p as [|a p IH]; intros [|b q] H L; simpl in *; try discriminate; auto.
  apply andb_true_iff in H as [Hab H]. apply String.eqb_eq in Hab.
  f_equal; auto.
Qed.


Lemma set_at_deeper es n n' p v :
  set_at (Dir es) (n :: n' :: p) v =
  match assoc n es with
  | Some c => match set_at c (n' :: p) v with
              | Some c' => Some (Dir (set_entry n (Some c') es))
              | None => None
              end
  | None => None
  end.
Proof. reflexivity. Qed.

(** An entry that exists can be rewritten or deleted. *)
Lemma set_at_existing_ok p : forall t s v,
  lookup t p = Some s -> p <> [] -> exists t', set_at t p v = Some t'.
Proof.
  induction p as [|n p IH]; intros t s v H Hne; [congruence |].
  simpl in H. destruct t as [d|es]; [discriminate |].
  destruct (assoc n es) as [c|] eqn:Ea; [| discriminate].
  destruct p as [|n' p']; [simpl; eauto |].
  destruct (IH c s v H) as [c' Hc']; [discriminate |].
  rewrite set_at_deeper, Ea, Hc'. eauto.
Qed.

Lemma set_at_delete_ok p t s :
  lookup t p = Some s -> p <> [] -> exists t', set_at t p None = Some t'.
Proof. apply set_at_existing_ok. Qed.

Lemma set_at_put_ok p : forall t es v,
  lookup t (removelast p) = Some (Dir es) -> p <> [] ->
  exists t', set_at t p v = Some t'.
Proof.
  induction p as [|n p IH]; intros t es v H Hne; [congruence |].
  destruct p as [|n' p'].
  - simpl in H. injection H as ->. simpl. eauto.
  - change (removelast (n :: n' :: p')) with (n :: removelast (n' :: p')) in H.
    simpl in H. destruct t as [d|es0]; [discriminate |].
    destruct (assoc n es0) as [c|] eqn:Ea; [| discriminate].
    destruct (IH c es v H) as [c' Hc']; [discriminate |].
    rewrite set_at_deeper, Ea, Hc'. eauto.
Qed.




(* ------------------------------------------------------------------ *)
(** ** The reference merge keeps and overwrites *)

Module RefFacts.




End RefFacts.

(* ------------------------------------------------------------------ *)
(** ** Paths: a path and its string name the same place *)

Lemma has_char_cons c d s : has_char c (String d s) = Ascii.eqb d c || has_char c s.
Proof.
  unfold has_char. simpl. rewrite negb_andb, negb_involutive. reflexivity.
Qed.

Lemma split_on_no_sep sep s :
  Forall (fun n => has_char sep n = false) (split_on sep s).
Proof.
  induction s as [|c s IH]; simpl.
  - constructor; [reflexivity | constructor].
  - destruct (Ascii.eqb c sep) eqn:Ec.
    + constructor; [reflexivity | assumption].
    + destruct (split_on sep s) as [|h t].
      * constructor; [| constructor]. rewrite has_char_cons, Ec. reflexivity.
      * inversion IH; subst. constructor; [| assumption].
        rewrite has_char_cons, Ec. assumption.
Qed.

Lemma split_on_plain sep x : has_char sep x = false -> split_on sep x = [x].
Proof.
  induction x as [|c x IH]; simpl; intro H; [reflexivity |].
  rewrite has_char_cons in H. apply orb_false_iff in H as [Hc Hx].
  rewrite Hc, (IH Hx). reflexivity.
Qed.

Lemma split_on_app sep x rest :
  has_char sep x = false ->
  split_on sep (x ++ String sep rest) = x :: split_on sep rest.
Proof.
  induction x as [|c x IH]; simpl; intro H.
  - rewrite Ascii.eqb_refl. reflexivity.
  - rewrite has_char_cons in H. apply orb_false_iff in H as [Hc Hx].
    rewrite Hc, (IH Hx). reflexivity.
Qed.

Lemma split_join sep names :
  names <> [] ->
  Forall (fun n => has_char sep n = false) names ->
  split_on sep (join (String sep "") names) = names.
Proof.
  unfold join. induction names as [|x [|y names] IH]; intros Hne Hall; [congruence | |].
  - simpl. inversion Hall; subst. apply split_on_plain. assumption.
  - inversion Hall; subst.
    change (String.concat (String sep "") (x :: y :: names))
      with (x ++ String sep (String.concat (String sep "") (y :: names))).
    rewrite split_on_app by assumption. f_equal. apply IH; [discriminate | assumption].
Qed.

Lemma filter_all {A} (f : A -> bool) l :
  Forall (fun x => f x = true) l -> filter f l = l.
Proof.
  induction 1 as [|x l Hx _ IH]; simpl; [reflexivity |]. rewrite Hx, IH. reflexivity.
Qed.

Lemma anchor_of_cases s : anchor_of s = "" \/ anchor_of s = "/" \/ anchor_of s = "//".
Proof.
  unfold anchor_of.
  repeat match goal with
         | |- context [match ?x with _ => _ end] => destruct x
         end; auto.
Qed.

Lemma anchor_of_plain c s : c <> "/"%char -> anchor_of (String c s) = "".
Proof.
  intro Hc. destruct c as [[] [] [] [] [] [] [] []]; try reflexivity.
  elim Hc. reflexivity.
Qed.

Lemma anchor_of_one c s : c <> "/"%char -> anchor_of (String "/" (String c s)) = "/".
Proof.
  intro Hc. destruct c as [[] [] [] [] [] [] [] []]; try reflexivity.
  elim Hc. reflexivity.
Qed.

Lemma anchor_of_two c s :
  c <> "/"%char -> anchor_of (String "/" (String "/" (String c s))) = "//".
Proof.
  intro Hc. destruct c as [[] [] [] [] [] [] [] []]; try reflexivity.
  elim Hc. reflexivity.
Qed.

Lemma Path_of_str_names a n ns :
  a = "" \/ a = "/" \/ a = "//" ->
  Forall (fun x => keep_name x = true /\ has_char "/" x = false) (n :: ns) ->
  Path_of (Path_str (mkPath a (n :: ns))) = mkPath a (n :: ns).
Proof.
  intros Ha Hall.
  assert (Hsep : Forall (fun x => has_char "/" x = false) (n :: ns))
    by (eapply Forall_impl; [| exact Hall]; intros x [_ Hx]; exact Hx).
  assert (Hkeep : Forall (fun x => keep_name x = true) (n :: ns))
    by (eapply Forall_impl; [| exact Hall]; intros x [Hx _]; exact Hx).
  assert (Hsplit : split_on "/" (join "/" (n :: ns)) = n :: ns)
    by (apply split_join; [discriminate | assumption]).
  assert (Hhead : exists c rest, join "/" (n :: ns) = String c rest /\ c <> "/"%char).
  { inversion Hall as [|x l [Hk Hs] _]; subst.
    destruct n as [|c n']; [discriminate |].
    rewrite has_char_cons in Hs. apply orb_false_iff in Hs as [Hc _].
    apply Ascii.eqb_neq in Hc.
    unfold join. destruct ns as [|y ns']; simpl; eauto. }
  destruct Hhead as (c & rest & Hj & Hc).
  change (Path_str (mkPath a (n :: ns))) with (a ++ join "/" (n :: ns)).
  unfold Path_of.
  destruct Ha as [->|[->| ->]].
  - change ("" ++ join "/" (n :: ns)) with (join "/" (n :: ns)).
    rewrite Hsplit, (filter_all _ _ Hkeep), Hj, (anchor_of_plain _ _ Hc).
    reflexivity.
  - change ("/" ++ join "/" (n :: ns)) with (String "/" (join "/" (n :: ns))).
    change (split_on "/" (String "/" (join "/" (n :: ns))))
      with ("" :: split_on "/" (join "/" (n :: ns))).
    rewrite Hsplit.
    change (filter keep_name ("" :: n :: ns)) with (filter keep_name (n :: ns)).
    rewrite (filter_all _ _ Hkeep), Hj, (anchor_of_one _ _ Hc). reflexivity.
  - change ("//" ++ join "/" (n :: ns))
      with (String "/" (String "/" (join "/" (n :: ns)))).
    change (split_on "/" (String "/" (String "/" (join "/" (n :: ns)))))
      with ("" :: "" :: split_on "/" (join "/" (n :: ns))).
    rewrite Hsplit.
    change (filter keep_name ("" :: "" :: n :: ns)) with (filter keep_name (n :: ns)).
    rewrite (filter_all _ _ Hkeep), Hj, (anchor_of_two _ _ Hc). reflexivity.
Qed.

(** Parsing the string of a parsed path gives the path back: [str(Path(s))]
    names the place [Path(s)] names. *)
Lemma Path_of_str (s : string) : Path_of (Path_str (Path_of s)) = Path_of s.
Proof.
  assert (Hall : Forall (fun x => keep_name x = true /\ has_char "/" x = false)
                   (names (Path_of s))).
  { unfold Path_of. cbn [names]. pose proof (split_on_no_sep "/" s) as H.
    induction H as [|x l Hx _ IH]; simpl; [constructor |].
    destruct (keep_name x) eqn:Ek; [constructor; auto | assumption]. }
  pose proof (anchor_of_cases s) as Ha.
  destruct (Path_of s) as [a ns] eqn:Ep.
  assert (Ea : a = anchor_of s) by (unfold Path_of in Ep; congruence).
  rewrite <- Ea in Ha. cbn [names] in Hall.
  destruct ns as [|n ns].
  - destruct Ha as [->|[->| ->]]; reflexivity.
  - apply Path_of_str_names; assumption.
Qed.

(* ------------------------------------------------------------------ *)
(** ** Paths and the world *)

Lemma Path_name_join p n : Path_name (Path_join p n) = n.
Proof. unfold Path_name, Path_join; simpl. apply last_last. Qed.

Lemma resolve_join w p n : resolve w (Path_join p n) = (resolve w p ++ [n])%list.
Proof.
  unfold resolve, Path_join; simpl.
  destruct (String.eqb (anchor p) ""); [rewrite app_assoc |]; reflexivity.
Qed.

Lemma is_dir_true p w :
  is_dir p w = true <-> exists es, lookup (root w) (resolve w p) = Some (Dir es).
Proof.
  unfold is_dir. destruct (lookup (root w) (resolve w p)) as [[d|es]|]; split;
    try discriminate; try (intros [es' H]; discriminate); eauto.
Qed.

Lemma iterdir_dir p w es :
  lookup (root w) (resolve w p) = Some (Dir es) ->
  iterdir p w = (Ok (map (fun e => Path_join p (fst e)) es), w).
Proof. unfold iterdir. intros ->. reflexivity. Qed.

Lemma shutil_copytree_spec (E : Env) (src dst : Path) (w : world) :
  shutil_copytree E src dst w =
  (fst (copytree E (root w) (resolve w src) (resolve w dst)),
   mkWorld (snd (copytree E (root w) (resolve w src) (resolve w dst)))
           (cwd w) (trace w ++ [EvCopytree src dst])).
Proof.
  unfold shutil_copytree. cbn [root log].
  change (resolve (log w (EvCopytree src dst)) src) with (resolve w src).
  change (resolve (log w (EvCopytree src dst)) dst) with (resolve w dst).
  destruct (copytree E (root w) (resolve w src) (resolve w dst)); reflexivity.
Qed.

Lemma Path_rename_spec (src dst : Path) (w : world) :
  Path_rename src dst w =
  match os_rename (root w) (resolve w src) (resolve w dst) with
  | Ok t => (Ok dst, with_root (log w (EvRename src dst)) t)
  | Raise e => (Raise e, log w (EvRename src dst))
  end.
Proof. reflexivity. Qed.

(* ------------------------------------------------------------------ *)
(** ** The spill loop, one round at a time *)

Section Spill.

Variable E : Env.

Lemma spill_loop_not_dir fuel sd p w :
  is_dir p w = false -> spill_loop E fuel sd p w = Some (Ok tt, w).
Proof. intro H. destruct fuel; simpl; rewrite H; reflexivity. Qed.

Lemma spill_loop_single fuel sd p w n c :
  lookup (root w) (resolve w p) = Some (Dir [(n, c)]) ->
  spill_loop E (S fuel) sd p w =
  match Path_rename (Path_join p n) (Path_join sd n) w with
  | (Ok p', w') => spill_loop E fuel sd p' w'
  | (Raise e, w') => Some (Raise e, w')
  end.
Proof.
  intro H. cbn [spill_loop].
  assert (Hd : is_dir p w = true) by (apply is_dir_true; eauto).
  rewrite Hd, (iterdir_dir _ _ _ H). cbn [map length fst Nat.eqb negb].
  rewrite Path_name_join. reflexivity.
Qed.

Lemma spill_loop_merge fuel sd p w es :
  lookup (root w) (resolve w p) = Some (Dir es) ->
  length es <> 1 ->
  spill_loop E (S fuel) sd p w = Some (shutil_copytree E p sd w).
Proof.
  intros H Hlen. cbn [spill_loop].
  assert (Hd : is_dir p w = true) by (apply is_dir_true; eauto).
  rewrite Hd, (iterdir_dir _ _ _ H), length_map.
  destruct (Nat.eqb_spec (length es) 1); [contradiction | reflexivity].
Qed.

(** A successful move puts the only child at the new current path, and
    that child is strictly shallower than the directory it came from. *)
Lemma rename_single_child sd p w n c p' w' :
  lookup (root w) (resolve w p) = Some (Dir [(n, c)]) ->
  Path_rename (Path_join p n) (Path_join sd n) w = (Ok p', w') ->
  p' = Path_join sd n /\
  lookup (root w') (resolve w' p') = Some c /\
  height_at p' w' < height_at p w.
Proof.
  intros H Hr. unfold Path_rename in Hr.
  cbn [root log cwd] in Hr.
  destruct (os_rename (root w) (resolve (log w (EvRename (Path_join p n) (Path_join sd n)))
                                        (Path_join p n))
              (resolve (log w (EvRename (Path_join p n) (Path_join sd n)))
                       (Path_join sd n))) as [t|e] eqn:Eo; [| discriminate].
  injection Hr as <- <-. split; [reflexivity |].
  assert (Hc : lookup (root w) (resolve w (Path_join p n)) = Some c).
  { rewrite resolve_join, (lookup_child _ _ n _ H). simpl.
    rewrite String.eqb_refl. reflexivity. }
  assert (Ht : lookup t (resolve w (Path_join sd n)) = Some c).
  { eapply os_rename_moves; [exact Eo | exact Hc]. }
  split; [exact Ht |].
  unfold height_at. cbn [root with_root].
  change (resolve (with_root (log w (EvRename (Path_join p n) (Path_join sd n))) t)
                  (Path_join sd n)) with (resolve w (Path_join sd n)).
  rewrite Ht, H. apply (height_child n). simpl. rewrite String.eqb_refl. reflexivity.
Qed.

(** Enough rounds: more than the height of what the current path names. *)
Lemma spill_loop_enough fuel : forall sd p w,
  height_at p w < fuel -> exists r, spill_loop E fuel sd p w = Some r.
Proof.
  induction fuel as [|fuel IH]; intros sd p w Hlt; [lia |].
  destruct (is_dir p w) eqn:Hd.
  - apply is_dir_true in Hd as [es Hes].
    destruct es as [|[n c] [|e es]].
    + rewrite (spill_loop_merge _ _ _ _ _ Hes); [eauto | simpl; lia].
    + rewrite (spill_loop_single _ _ _ _ _ _ Hes).
      destruct (Path_rename (Path_join p n) (Path_join sd n) w) as [[p'|e] w'] eqn:Er.
      * destruct (rename_single_child _ _ _ _ _ _ _ Hes Er) as (_ & _ & Hh).
        apply IH. lia.
      * eauto.
    + rewrite (spill_loop_merge _ _ _ _ _ Hes); [eauto | simpl; lia].
  - rewrite spill_loop_not_dir; eauto.
Qed.

(** Rounds that are not needed change nothing. *)
Lemma spill_loop_more fuel : forall sd p w r extra,
  spill_loop E fuel sd p w = Some r ->
  spill_loop E (fuel + extra) sd p w = Some r.
Proof.
  induction fuel as [|fuel IH]; intros sd p w r extra H.
  - destruct (is_dir p w) eqn:Hd.
    + simpl in H. rewrite Hd in H. discriminate.
    + rewrite spill_loop_not_dir in H by assumption.
      rewrite spill_loop_not_dir by assumption. assumption.
  - destruct (is_dir p w) eqn:Hd.
    + apply is_dir_true in Hd as [es Hes]. cbn [Nat.add].
      destruct es as [|[n c] [|e es]].
      * rewrite (spill_loop_merge fuel _ _ _ _ Hes) in H by (simpl; lia).
        rewrite (spill_loop_merge _ _ _ _ _ Hes) by (simpl; lia). assumption.
      * rewrite (spill_loop_single fuel _ _ _ _ _ Hes) in H.
        rewrite (spill_loop_single _ _ _ _ _ _ Hes).
        destruct (Path_rename (Path_join p n) (Path_join sd n) w) as [[p'|e] w'];
          [apply IH |]; assumption.
      * rewrite (spill_loop_merge fuel _ _ _ _ Hes) in H by (simpl; lia).
        rewrite (spill_loop_merge _ _ _ _ _ Hes) by (simpl; lia). assumption.
    + rewrite spill_loop_not_dir in H by assumption.
      rewrite spill_loop_not_dir by assumption. assumption.
Qed.

Lemma handle_spill_loop dst w :
  spill_loop E (S (height_at (Path_of dst) w))
    (Path_parent (Path_of dst)) (Path_of dst) w = Some (handle_spill E dst w).
Proof.
  unfold handle_spill.
  destruct (spill_loop_enough (S (height_at (Path_of dst) w))
              (Path_parent (Path_of dst)) (Path_of dst) w) as [r Hr]; [lia |].
  rewrite Hr. reflexivity.
Qed.

End Spill.

(* ------------------------------------------------------------------ *)
(** ** The transport invoker *)

Section Invoker.

Variable E : Env.

(** What [execute_command] does, by how the child ends. *)
Lemma execute_command_spec command w :
  execute_command E command w =
  match spawn E command (started w command) with
  | (Exited code, t) =>
      if (code =? 0)%Z then (Ok tt, with_root (started w command) t)
      else (Raise (SystemExit code),
            log (with_root (started w command) t)
                (EvPrint ("Error executing command: " ++ join " " command)))
  | (NotStarted e, t) => (Raise (OSError e), with_root (started w command) t)
  end.
Proof.
  unfold execute_command, bind, try_except, print, subprocess_run, started.
  cbn beta iota.
  destruct (spawn E command _) as [[code|e] t]; [| reflexivity].
  destruct (code =? 0)%Z; reflexivity.
Qed.

(** One child is started, and only the error line may follow it. *)
Lemma execute_command_trace command w :
  exists tail,
    trace (snd (execute_command E command w)) =
      (trace w ++ [EvPrint ("Executing command: " ++ join " " command);
                   EvExec command] ++ tail)%list /\
    (forall cmd, ~ In (EvExec cmd) tail).
Proof.
  rewrite execute_command_spec.
  destruct (spawn E command _) as [[code|e] t].
  - destruct (code =? 0)%Z; cbn.
    + exists []. rewrite <- app_assoc. split; [reflexivity | intros cmd []].
    + eexists [_]. rewrite <- !app_assoc. split; [reflexivity |].
      intros cmd [H|[]]. discriminate.
  - cbn. exists []. rewrite <- app_assoc. split; [reflexivity | intros cmd []].
Qed.

Lemma executed_app w l :
  executed (mkWorld (root w) (cwd w) (trace w ++ l)) =
  (executed w ++ flat_map (fun e => match e with EvExec cmd => [cmd] | _ => [] end) l)%list.
Proof. unfold executed; simpl. apply flat_map_app. Qed.

Lemma execute_command_executed command w :
  executed (snd (execute_command E command w)) = (executed w ++ [command])%list.
Proof.
  rewrite execute_command_spec. unfold executed.
  destruct (spawn E command _) as [[code|e] t]; [destruct (code =? 0)%Z |];
    cbn; rewrite ?flat_map_app; cbn; rewrite ?app_nil_r; reflexivity.
Qed.

End Invoker.

(* ------------------------------------------------------------------ *)
(** ** The phases of [main] *)

Section Main.

Variable E : Env.

Lemma is_url_Ok s :
  is_url (urlparse E) s =
  Ok (match is_url (urlparse E) s with Ok b => b | Raise _ => false end).
Proof. unfold is_url. destruct (urlparse E s); reflexivity. Qed.

(** [main] is the chosen transport, then extraction and spill, with the
    cleanup on the way out. *)
Lemma main_phases argv0 src dst extra_opts w :
  main E argv0 src dst extra_opts w =
  try_finally
    (run_transport E (chosen_transport E argv0 src dst w) src
       (transport_dst E argv0 dst w) extra_opts ;;
     after_transport E argv0 dst (tmp_archive_of E argv0 w))
    (cleanup (tmp_archive_of E argv0 w)) w.
Proof.
  unfold main, chosen_transport, transport_dst, tmp_archive_of, after_transport,
    cleanup, should_extract, should_dig, select_transport, try_finally, bind, lift.
  rewrite (is_url_Ok src).
  destruct (startswith "cpx" (Path_name (Path_of argv0)));
    destruct (match is_url (urlparse E) src with Ok b => b | Raise _ => false end);
    try reflexivity.
  - destruct (is_remote_path src || is_remote_path (mktemp E w)); reflexivity.
  - destruct (is_remote_path src || is_remote_path dst); reflexivity.
Qed.

(** Each transport starts exactly one child. *)
Lemma run_transport_trace t src dst extra_opts w :
  exists command tail,
    trace (snd (run_transport E t src dst extra_opts w)) =
      (trace w ++ [EvPrint ("Executing command: " ++ join " " command);
                   EvExec command] ++ tail)%list /\
    (forall cmd, ~ In (EvExec cmd) tail).
Proof.
  destruct t; cbn [run_transport]; unfold download_http, copy_remote, copy_local;
    eexists; apply execute_command_trace.
Qed.

Lemma handle_extract_trace src dst w :
  exists l,
    trace (snd (handle_extract E src dst w)) = (trace w ++ l)%list /\
    (forall cmd, In (EvExec cmd) l -> is_atool cmd).
Proof.
  unfold handle_extract. destruct (is_file (Path_of src) w); cbn [negb].
  - destruct (execute_command_trace E
                ["atool"; Path_str (Path_of src); "--extract-to"; dst] w)
      as (tail & -> & Hno).
    eexists. split; [reflexivity |].
    intros cmd [H|[H|H]]; [discriminate | | elim (Hno _ H)].
    injection H as <-. do 2 eexists. reflexivity.
  - cbn. eexists [_]. split; [reflexivity |]. intros cmd [H|[]]. discriminate.
Qed.

Lemma spill_loop_trace fuel : forall sd p w r w',
  spill_loop E fuel sd p w = Some (r, w') ->
  exists l, trace w' = (trace w ++ l)%list /\ (forall cmd, ~ In (EvExec cmd) l).
Proof.
  induction fuel as [|fuel IH]; intros sd p w r w' H.
  - simpl in H. destruct (is_dir p w); [discriminate |].
    injection H as <- <-. exists []. rewrite app_nil_r. split; [reflexivity | intros cmd []].
  - destruct (is_dir p w) eqn:Hd.
    + apply is_dir_true in Hd as [es Hes].
      assert (Hmerge : forall w0 r0 w0',
                 Some (shutil_copytree E p sd w0) = Some (r0, w0') ->
                 exists l, trace w0' = (trace w0 ++ l)%list /\
                           (forall cmd, ~ In (EvExec cmd) l)).
      { intros w0 r0 w0' H0. unfold shutil_copytree in H0.
        destruct (copytree E _ _ _) as [r1 t1]. injection H0 as <- <-.
        eexists [_]. split; [reflexivity |]. intros cmd [H0|[]]. discriminate. }
      destruct es as [|[n c] [|e es]].
      * rewrite (spill_loop_merge _ _ _ _ _ _ Hes) in H by (simpl; lia). eauto.
      * rewrite (spill_loop_single _ _ _ _ _ _ _ Hes) in H.
        unfold Path_rename in H.
        destruct (os_rename _ _ _) as [t|e].
        -- apply IH in H as (l & Hl & Hno). cbn in Hl.
           exists (EvRename (Path_join p n) (Path_join sd n) :: l).
           rewrite Hl, <- app_assoc. split; [reflexivity |].
           intros cmd [H0|H0]; [discriminate | elim (Hno _ H0)].
        -- injection H as <- <-. eexists [_]. split; [reflexivity |].
           intros cmd [H0|[]]. discriminate.
      * rewrite (spill_loop_merge _ _ _ _ _ _ Hes) in H by (simpl; lia). eauto.
    + rewrite spill_loop_not_dir in H by assumption.
      injection H as <- <-. exists []. rewrite app_nil_r. split; [reflexivity | intros cmd []].
Qed.

Lemma handle_spill_trace dst w :
  exists l,
    trace (snd (handle_spill E dst w)) = (trace w ++ l)%list /\
    (forall cmd, ~ In (EvExec cmd) l).
Proof.
  pose proof (handle_spill_loop E dst w) as H.
  destruct (handle_spill E dst w) as [r w']. eapply spill_loop_trace. exact H.
Qed.

Lemma after_transport_trace argv0 dst tmp w :
  exists l,
    trace (snd (after_transport E argv0 dst tmp w)) = (trace w ++ l)%list /\
    (forall cmd, In (EvExec cmd) l -> is_atool cmd).
Proof.
  assert (Hspill : forall d w0, exists l,
             trace (snd ((if should_dig argv0 then handle_spill E d else ret tt) w0))
             = (trace w0 ++ l)%list /\
             (forall cmd, ~ In (EvExec cmd) l)).
  { intros d w0. destruct (should_dig argv0); [apply handle_spill_trace |].
    exists []. cbn. rewrite app_nil_r. split; [reflexivity | intros cmd []]. }
  unfold after_transport, bind. destruct tmp as [t|].
  - destruct (handle_extract_trace t dst w) as (l1 & H1 & Hat).
    destruct (handle_extract E t dst w) as [[u|e] w1]; cbn [snd] in *.
    + cbn [ret]. destruct (Hspill dst w1) as (l2 & H2 & Hno).
      exists (l1 ++ l2)%list. rewrite H2, H1, app_assoc. split; [reflexivity |].
      intros cmd Hin. apply in_app_or in Hin as [Hin|Hin]; [auto | elim (Hno _ Hin)].
    + eauto.
  - cbn [ret]. destruct (Hspill dst w) as (l2 & H2 & Hno).
    exists l2. split; [assumption |]. intros cmd Hin. elim (Hno _ Hin).
Qed.

Lemma cleanup_trace tmp w :
  exists l,
    trace (snd (cleanup tmp w)) = (trace w ++ l)%list /\
    (forall cmd, ~ In (EvExec cmd) l).
Proof.
  destruct tmp as [t|]; cbn.
  - unfold unlink. destruct (os_unlink _ _); cbn;
      (eexists [_]; split; [reflexivity | intros cmd [H|[]]; discriminate]).
  - exists []. rewrite app_nil_r. split; [reflexivity | intros cmd []].
Qed.

(** The working directory never changes. *)
Lemma execute_command_cwd command w :
  cwd (snd (execute_command E command w)) = cwd w.
Proof.
  rewrite execute_command_spec.
  destruct (spawn E _ _) as [[code|e] t]; [destruct (code =? 0)%Z |]; reflexivity.
Qed.

Lemma run_transport_cwd t src dst extra_opts w :
  cwd (snd (run_transport E t src dst extra_opts w)) = cwd w.
Proof.
  destruct t; cbn [run_transport]; unfold download_http, copy_remote, copy_local;
    apply execute_command_cwd.
Qed.

Lemma handle_extract_cwd src dst w :
  cwd (snd (handle_extract E src dst w)) = cwd w.
Proof.
  unfold handle_extract. destruct (is_file _ w); cbn [negb];
    [apply execute_command_cwd | reflexivity].
Qed.

Lemma spill_loop_cwd fuel : forall sd p w r w',
  spill_loop E fuel sd p w = Some (r, w') -> cwd w' = cwd w.
Proof.
  induction fuel as [|fuel IH]; intros sd p w r w' H.
  - simpl in H. destruct (is_dir p w); [discriminate |].
    injection H as _ <-. reflexivity.
  - destruct (is_dir p w) eqn:Hd.
    + apply is_dir_true in Hd as [es Hes].
      destruct es as [|[n c] [|e es]].
      * rewrite (spill_loop_merge _ _ _ _ _ _ Hes) in H by (simpl; lia).
        rewrite shutil_copytree_spec in H. injection H as _ <-. reflexivity.
      * rewrite (spill_loop_single _ _ _ _ _ _ _ Hes), Path_rename_spec in H.
        destruct (os_rename _ _ _) as [t|e].
        -- apply IH in H. exact H.
        -- injection H as _ <-. reflexivity.
      * rewrite (spill_loop_merge _ _ _ _ _ _ Hes) in H by (simpl; lia).
        rewrite shutil_copytree_spec in H. injection H as _ <-. reflexivity.
    + rewrite spill_loop_not_dir in H by assumption.
      injection H as _ <-. reflexivity.
Qed.

Lemma handle_spill_cwd dst w : cwd (snd (handle_spill E dst w)) = cwd w.
Proof.
  pose proof (handle_spill_loop E dst w) as H.
  destruct (handle_spill E dst w) as [r w']. eapply spill_loop_cwd. exact H.
Qed.

Lemma after_transport_cwd argv0 dst tmp w :
  cwd (snd (after_transport E argv0 dst tmp w)) = cwd w.
Proof.
  assert (Hspill : forall d w0,
             cwd (snd ((if should_dig argv0 then handle_spill E d else ret tt) w0))
             = cwd w0).
  { intros d w0. destruct (should_dig argv0); [apply handle_spill_cwd | reflexivity]. }
  unfold after_transport, bind. destruct tmp as [t|].
  - pose proof (handle_extract_cwd t dst w) as Hx.
    destruct (handle_extract E t dst w) as [[u|e] w1]; cbn [snd] in *.
    + cbn [ret]. rewrite Hspill. assumption.
    + assumption.
  - cbn [ret]. apply Hspill.
Qed.

End Main.

(* ------------------------------------------------------------------ *)
(** ** The classifier: properties *)

Lemma string_in_In s xs : string_in s xs = true <-> In s xs.
Proof.
  unfold string_in. rewrite existsb_exists. split.
  - intros (x & Hin & Heq). apply String.eqb_eq in Heq. congruence.
  - intro Hin. exists s. split; [assumption | apply String.eqb_refl].
Qed.

(** C6. For every input string and whatever the URI parser does with it,
    [is_url] returns a boolean and never raises; the boolean is true exactly
    when the parse succeeds with scheme http, https or ftp, and it is false
    whenever the parse fails. *)
Theorem is_url_never_raises (urlparse : string -> result ParseResult) (s : string) :
  exists b : bool,
    is_url urlparse s = Ok b /\
    (b = true <->
       exists r, urlparse s = Ok r /\ In (scheme r) ["http"; "https"; "ftp"]) /\
    (forall e, urlparse s = Raise e -> b = false).
Proof.
  unfold is_url. destruct (urlparse s) as [r|e].
  - eexists. split; [reflexivity |]. split.
    + rewrite string_in_In. split.
      * intro H. exists r. auto.
      * intros (r' & Hr & Hin). injection Hr as <-. assumption.
    + intros e He. discriminate.
  - exists false. split; [reflexivity |]. split.
    + split; [discriminate | intros (r & Hr & _); discriminate].
    + reflexivity.
Qed.

Lemma is_url_never_raises_witness :
  is_url Ref.urlparse "ftp://[::1/pub" = Ok false /\
  is_url Ref.urlparse "https://example.com/file.tar.gz" = Ok true.
Proof.
  split.
  - destruct (is_url_never_raises Ref.urlparse "ftp://[::1/pub") as (b & -> & _ & Hraise).
    rewrite (Hraise ValueError); reflexivity.
  - destruct (is_url_never_raises Ref.urlparse "https://example.com/file.tar.gz")
      as (b & -> & Hiff & _).
    f_equal. apply Hiff. eexists. split; [reflexivity |]. simpl. auto.
Defined.

Module RemotePath.
Import Re ReFacts.

Lemma Matches_seq_app b r1 r2 s1 s2 :
  Matches b r1 s1 -> s1 <> "" -> Matches false r2 s2 -> Matches b (Seq r1 r2) (s1 ++ s2).
Proof.
  intros H1 Hne H2. destruct s1 as [|c s1]; [congruence |].
  apply MSeqCons; assumption.
Qed.

Lemma append_nonempty_l s t : s <> "" -> s ++ t <> "".
Proof. destruct s; [congruence | discriminate]. Qed.

(** host ":" c, from any position *)
Lemma Matches_host_colon b host c :
  token host -> not_newline c = true ->
  Matches b (Seq (Plus (Chars host_class)) (Seq (Lit ":") (Plus Dot)))
    (host ++ ":" ++ String c "").
Proof.
  intros [Hne Hall] Hc.
  apply Matches_seq_app; [apply Matches_plus_class; assumption | assumption |].
  apply (MSeqCons false (Lit ":") (Plus Dot) ":" "" (String c "")); [constructor |].
  apply (MSeqCons false Dot (Star Dot) c "" ""); constructor. assumption.
Qed.

Lemma Matches_remote_form user host c :
  token host -> (forall u, user = Some u -> token u) -> not_newline c = true ->
  Matches true remote_path_re (remote_form user host (String c "")).
Proof.
  intros Hh Hu Hc. unfold remote_path_re. apply MSeqNil; [constructor |].
  destruct user as [u|]; simpl.
  - destruct (Hu u eq_refl) as [Hne Hall].
    replace (u ++ String "@" (host ++ String ":" (String c "")))
      with ((u ++ "@") ++ (host ++ ":" ++ String c ""))
      by (rewrite append_assoc; reflexivity).
    apply Matches_seq_app.
    + apply MAltL. apply Matches_seq_app;
        [apply Matches_plus_class; assumption | assumption | constructor].
    + apply append_nonempty_l; assumption.
    + apply Matches_host_colon; assumption.
  - apply MSeqNil; [apply MAltR; constructor |].
    apply Matches_host_colon; assumption.
Qed.

Lemma remote_form_split user host c rest :
  remote_form user host (String c rest) = remote_form user host (String c "") ++ rest.
Proof.
  destruct user as [u|]; simpl; rewrite ?append_assoc; simpl;
    rewrite ?append_assoc; reflexivity.
Qed.

End RemotePath.

(** C7 (as amended). Every string of the form user@host:path or host:path
    is classified as a remote path, provided host (and user, when present) is
    a non-empty run of letters, digits, '.', '_' and '-', and the path is
    non-empty and does not begin with a line feed. *)
Theorem is_remote_path_forms (user : option string) (host : string)
    (c : ascii) (rest : string) :
  token host ->
  (forall u, user = Some u -> token u) ->
  c <> Re.newline ->
  is_remote_path (remote_form user host (String c rest)) = true.
Proof.
  intros Hh Hu Hc. unfold is_remote_path.
  apply ReFacts.re_match_spec.
  exists (remote_form user host (String c "")), rest. split.
  - apply RemotePath.remote_form_split.
  - apply RemotePath.Matches_remote_form; try assumption.
    unfold Re.not_newline. apply negb_true_iff, Ascii.eqb_neq. assumption.
Qed.

Lemma is_remote_path_forms_witness :
  is_remote_path "alice@files.example.org:/srv/data" = true /\
  is_remote_path "build-01:out" = true.
Proof.
  split.
  - apply (is_remote_path_forms (Some "alice") "files.example.org" "/" "srv/data").
    + split; [discriminate | reflexivity].
    + intros u Hu. injection Hu as <-. split; [discriminate | reflexivity].
    + discriminate.
  - apply (is_remote_path_forms None "build-01" "o" "ut").
    + split; [discriminate | reflexivity].
    + intros u Hu. discriminate.
    + discriminate.
Defined.

(** C7 (as stated) fails: [.] does not match a line feed, so a path that
    begins with one is not recognised, although a host token, a colon and
    one or more characters are there. *)
Lemma is_remote_path_newline_counterexample :
  ~ (forall (user : option string) (host path : string),
       token host -> path <> "" ->
       is_remote_path (remote_form user host path) = true).
Proof.
  intro H.
  specialize (H None "host" (String Re.newline "dir")).
  assert (Hfalse : is_remote_path (remote_form None "host" (String Re.newline "dir")) = false)
    by reflexivity.
  rewrite H in Hfalse; [discriminate | split; [discriminate | reflexivity] | discriminate].
Qed.

(** A user part outside the host alphabet is not recognised either. *)
Example is_remote_path_user_alphabet :
  is_remote_path (remote_form (Some "j doe") "host" "/dir") = false.
Proof. reflexivity. Qed.

(** The drive-letter path the specification worries about is classified as
    remote. *)
Example is_remote_path_drive_letter : is_remote_path "C:\data" = true.
Proof. reflexivity. Qed.

(* ------------------------------------------------------------------ *)
(** ** The remote-path pattern, read backwards *)

Module RemotePathInv.
Import Re ReFacts.

Lemma inv_seq b r1 r2 s :
  Matches b (Seq r1 r2) s ->
  (Matches b r1 "" /\ Matches b r2 s) \/
  (exists c s1 s2,
     s = String c s1 ++ s2 /\ Matches b r1 (String c s1) /\ Matches false r2 s2).
Proof. intro H. inversion H; subst; [left; auto | right; eauto 6]. Qed.

Lemma inv_star b r s :
  Matches b (Star r) s ->
  s = "" \/
  (exists c s1 s2,
     s = String c s1 ++ s2 /\ Matches b r (String c s1) /\ Matches false (Star r) s2).
Proof. intro H. inversion H; subst; [left; auto | right; eauto 6]. Qed.

Lemma inv_alt b r1 r2 s :
  Matches b (Alt r1 r2) s -> Matches b r1 s \/ Matches b r2 s.
Proof. intro H. inversion H; subst; auto. Qed.

Lemma inv_chars b items s :
  Matches b (Chars items) s -> exists c, s = String c "" /\ in_class items c = true.
Proof. intro H. inversion H; subst; eauto. Qed.

Lemma inv_dot b s :
  Matches b Dot s -> exists c, s = String c "" /\ not_newline c = true.
Proof. intro H. inversion H; subst; eauto. Qed.

Lemma inv_lit b c s : Matches b (Lit c) s -> s = String c "".
Proof. intro H. inversion H; subst; reflexivity. Qed.

Lemma inv_eps b s : Matches b Eps s -> s = "".
Proof. intro H. inversion H; subst; reflexivity. Qed.

Lemma inv_bol b s : Matches b Bol s -> s = "".
Proof. intro H. inversion H; subst; reflexivity. Qed.

Lemma inv_star_class items s : forall b,
  Matches b (Star (Chars items)) s -> all_chars (in_class items) s = true.
Proof.
  induction s as [s IH] using (well_founded_induction
                                 (Wf_nat.well_founded_ltof _ String.length)).
  intros b H. apply inv_star in H as [->|(c & s1 & s2 & -> & Hc & Hs)]; [reflexivity |].
  apply inv_chars in Hc as (d & Hd & Hin). injection Hd as -> ->.
  simpl. rewrite Hin. apply (IH s2 (Nat.lt_succ_diag_r _) false). exact Hs.
Qed.

Lemma inv_plus_class b items s :
  Matches b (Plus (Chars items)) s ->
  s <> "" /\ all_chars (in_class items) s = true.
Proof.
  intro H. apply inv_seq in H as [[H _]|(c & s1 & s2 & -> & Hc & Hs)].
  - apply inv_chars in H as (d & Hd & _). discriminate.
  - apply inv_chars in Hc as (d & Hd & Hin). injection Hd as -> ->.
    split; [discriminate |]. simpl. rewrite Hin.
    apply inv_star_class in Hs. exact Hs.
Qed.

Lemma inv_plus_dot b s :
  Matches b (Plus Dot) s -> exists c rest, s = String c rest /\ not_newline c = true.
Proof.
  intro H. apply inv_seq in H as [[H _]|(c & s1 & s2 & -> & Hc & Hs)].
  - apply inv_dot in H as (d & Hd & _). discriminate.
  - apply inv_dot in Hc as (d & Hd & Hin). injection Hd as -> ->. simpl. eauto.
Qed.

Lemma inv_host_colon b s :
  Matches b (Seq (Plus (Chars host_class)) (Seq (Lit ":") (Plus Dot))) s ->
  exists host c rest,
    s = host ++ ":" ++ String c rest /\ token host /\ not_newline c = true.
Proof.
  intro H. apply inv_seq in H as [[H _]|(c & s1 & s2 & -> & Hhost & Htail)].
  - apply inv_plus_class in H as [Hne _]. congruence.
  - apply inv_plus_class in Hhost as [Hne Hall].
    apply inv_seq in Htail as [[H _]|(c1 & t1 & t2 & -> & Hcolon & Hdots)].
    + apply inv_lit in H. discriminate.
    + apply inv_lit in Hcolon. injection Hcolon as -> ->.
      apply inv_plus_dot in Hdots as (d & rest & -> & Hd).
      exists (String c s1), d, rest. repeat split; assumption.
Qed.

Lemma inv_remote_path p :
  Matches true remote_path_re p ->
  exists user host c rest,
    p = remote_form user host (String c rest) /\
    token host /\ (forall u, user = Some u -> token u) /\ not_newline c = true.
Proof.
  unfold remote_path_re. intro H.
  apply inv_seq in H as [[_ H]|(c & s1 & s2 & _ & Hbol & _)];
    [| apply inv_bol in Hbol; discriminate].
  apply inv_seq in H as [[_ H]|(c & s1 & s2 & -> & Huser & Htail)].
  - apply inv_host_colon in H as (host & c & rest & -> & Hh & Hc).
    exists None, host, c, rest.
    split; [reflexivity | split; [assumption | split; [| assumption]]].
    intros u Hu. discriminate.
  - apply inv_host_colon in Htail as (host & d & rest & -> & Hh & Hd).
    apply inv_alt in Huser as [Huser|Huser]; [| apply inv_eps in Huser; discriminate].
    apply inv_seq in Huser as [[H _]|(c0 & u1 & u2 & Heq & Hu & Hat)].
    + apply inv_plus_class in H as [Hne _]. congruence.
    + apply inv_plus_class in Hu as [Hne Hall].
      apply inv_lit in Hat. subst u2.
      exists (Some (String c0 u1)), host, d, rest.
      split; [| split; [assumption | split; [| assumption]]].
      * rewrite Heq. simpl. rewrite append_assoc. reflexivity.
      * intros u Hu. injection Hu as <-. split; assumption.
Qed.

End RemotePathInv.

(** The classifier accepts exactly the strings of the amended form. *)
Lemma is_remote_path_exact (s : string) :
  is_remote_path s = true <->
  exists user host c rest,
    s = remote_form user host (String c rest) /\
    token host /\ (forall u, user = Some u -> token u) /\ c <> Re.newline.
Proof.
  split.
  - intro H. apply ReFacts.re_match_spec in H as (p & q & -> & Hp).
    apply RemotePathInv.inv_remote_path in Hp as (user & host & c & rest & -> & Hh & Hu & Hc).
    exists user, host, c, (rest ++ q).
    split; [| split; [assumption | split; [assumption |]]].
    + rewrite (RemotePath.remote_form_split user host c rest),
        (RemotePath.remote_form_split user host c (rest ++ q)), append_assoc.
      reflexivity.
    + unfold Re.not_newline in Hc. apply negb_true_iff, Ascii.eqb_neq in Hc. exact Hc.
  - intros (user & host & c & rest & -> & Hh & Hu & Hc).
    unfold is_remote_path. apply ReFacts.re_match_spec.
    exists (remote_form user host (String c "")), rest. split.
    + apply RemotePath.remote_form_split.
    + apply RemotePath.Matches_remote_form; try assumption.
      unfold Re.not_newline. apply negb_true_iff, Ascii.eqb_neq. assumption.
Qed.

(* ------------------------------------------------------------------ *)
(** ** The transport commands *)

(** C8. [download_http] starts exactly one child, a curl command.  When the
    destination is an existing directory the command is
    [curl -OJL src --output-dir dst] (remote name, into that directory);
    otherwise it is [curl -L src -o dst] (that very file).  Both flag groups
    contain [L] (follow redirects), the extra options come last, after the
    flags of the transport, and the path written into the command names the
    destination path itself. *)
Theorem download_http_command (E : Env) (src dst : string)
    (extra_opts : list string) (w : world) :
  let dst_path := Path_of dst in
  let to_directory := ["curl"; "-OJL"; src; "--output-dir"; Path_str dst_path] in
  let to_file := ["curl"; "-L"; src; "-o"; Path_str dst_path] in
  exists fixed,
    executed (snd (download_http E src dst extra_opts w))
      = (executed w ++ [fixed ++ extra_opts])%list /\
    fixed = (if is_dir dst_path w then to_directory else to_file) /\
    (is_dir dst_path w = true -> fixed = to_directory) /\
    (is_dir dst_path w = false -> fixed = to_file) /\
    has_char "L" (nth 1 fixed "") = true /\
    Path_of (Path_str dst_path) = dst_path.
Proof.
  intros dst_path to_directory to_file.
  exists (if is_dir dst_path w then to_directory else to_file).
  unfold download_http. fold dst_path.
  rewrite execute_command_executed.
  pose proof (Path_of_str dst) as Hround. fold dst_path in Hround.
  destruct (is_dir dst_path w); repeat split; try reflexivity; try discriminate;
    exact Hround.
Qed.

Lemma download_http_command_witness :
  executed (snd (download_http Ref.env "https://example.com/file.tar.gz" "out/"
                   ["--silent"] Ref.w0))
  = [["curl"; "-OJL"; "https://example.com/file.tar.gz"; "--output-dir"; "out";
      "--silent"]] /\
  executed (snd (download_http Ref.env "https://example.com/file.tar.gz" "new.tgz"
                   ["--silent"] Ref.w0))
  = [["curl"; "-L"; "https://example.com/file.tar.gz"; "-o"; "new.tgz"; "--silent"]].
Proof.
  split.
  - destruct (download_http_command Ref.env "https://example.com/file.tar.gz" "out/"
                ["--silent"] Ref.w0) as (fixed & -> & _ & Hdir & _ & _ & _).
    rewrite (Hdir eq_refl). reflexivity.
  - destruct (download_http_command Ref.env "https://example.com/file.tar.gz" "new.tgz"
                ["--silent"] Ref.w0) as (fixed & -> & _ & _ & Hfile & _ & _).
    rewrite (Hfile eq_refl). reflexivity.
Defined.

(** C9. [copy_remote] and [copy_local] each start exactly one child, an
    rsync command in archive mode ([-a]) with the extra options spliced in
    before the source and the destination; the remote command carries
    [--info=progress2] among its own flags, the local one has [-a] only, so
    the progress flag is in the local command only if the caller's own
    arguments contain it. *)
Theorem sync_commands (E : Env) (src dst : string)
    (extra_opts : list string) (w : world) :
  let remote := (["rsync"; "-a"; "--info=progress2"] ++ extra_opts ++ [src; dst])%list in
  let local := (["rsync"; "-a"] ++ extra_opts ++ [src; dst])%list in
  executed (snd (copy_remote E src dst extra_opts w)) = (executed w ++ [remote])%list /\
  executed (snd (copy_local E src dst extra_opts w)) = (executed w ++ [local])%list /\
  In "--info=progress2" remote /\
  (~ In "--info=progress2" (extra_opts ++ [src; dst]) -> ~ In "--info=progress2" local).
Proof.
  intros remote local. unfold copy_remote, copy_local.
  rewrite !execute_command_executed. repeat split.
  - simpl. auto.
  - intros Hno [H|[H|H]]; [discriminate | discriminate | contradiction].
Qed.

Lemma sync_commands_witness :
  ~ In "--info=progress2" ["rsync"; "-a"; "-v"; "host:/remote/dir"; "./local/"] /\
  In "--info=progress2"
     ["rsync"; "-a"; "--info=progress2"; "-v"; "host:/remote/dir"; "./local/"].
Proof.
  destruct (sync_commands Ref.env "host:/remote/dir" "./local/" ["-v"] Ref.w0)
    as (_ & _ & Hin & Hnot).
  split; [apply Hnot | exact Hin].
  simpl. intros [H|[H|[H|[]]]]; discriminate.
Defined.

(* ------------------------------------------------------------------ *)
(** ** [main]: which transport runs, how the run ends *)

Section MainFacts.

Variable E : Env.

Lemma try_finally_world {A} (body : M A) (cl : M unit) w :
  snd (try_finally body cl w) = snd (cl (snd (body w))).
Proof.
  unfold try_finally. destruct (body w) as [r w1]. cbn [snd].
  destruct (cl w1) as [[u|e] w2]; reflexivity.
Qed.

Lemma run_transport_executed t src dst extra_opts w :
  exists command,
    executed (snd (run_transport E t src dst extra_opts w))
      = (executed w ++ [command])%list /\
    (hd "" command = "curl" \/ hd "" command = "rsync").
Proof.
  destruct t; cbn [run_transport]; unfold download_http, copy_remote, copy_local;
    eexists; (split; [apply execute_command_executed |]).
  - destruct (is_dir (Path_of dst) w); auto.
  - auto.
  - auto.
Qed.

(** After the chosen transport, [main] starts nothing but atool. *)
Lemma main_after_transport argv0 src dst extra_opts w :
  exists later,
    trace (snd (main E argv0 src dst extra_opts w)) =
      (trace (snd (run_transport E (chosen_transport E argv0 src dst w) src
                     (transport_dst E argv0 dst w) extra_opts w)) ++ later)%list /\
    (forall cmd, In (EvExec cmd) later -> is_atool cmd).
Proof.
  rewrite main_phases, try_finally_world. unfold bind.
  destruct (run_transport E _ src _ extra_opts w) as [[u|e] w1]; cbn [snd].
  - destruct (after_transport_trace E argv0 dst (tmp_archive_of E argv0 w) w1)
      as (l1 & H1 & Hat).
    destruct (cleanup_trace (tmp_archive_of E argv0 w)
                (snd (after_transport E argv0 dst (tmp_archive_of E argv0 w) w1)))
      as (l2 & H2 & Hno).
    exists (l1 ++ l2)%list. rewrite H2, H1, app_assoc. split; [reflexivity |].
    intros cmd Hin. apply in_app_or in Hin as [Hin|Hin]; [auto | elim (Hno _ Hin)].
  - destruct (cleanup_trace (tmp_archive_of E argv0 w) w1) as (l2 & H2 & Hno).
    exists l2. split; [assumption |]. intros cmd Hin. elim (Hno _ Hin).
Qed.

(** What [unlink] does, by what the path names. *)
Lemma unlink_spec p w :
  unlink p w =
  match lookup (root w) (resolve w (Path_of p)) with
  | None => (Raise (OSError ENOENT), log w (EvUnlink p))
  | Some (Dir _) => (Raise (OSError EISDIR), log w (EvUnlink p))
  | Some (File _) =>
      match set_at (root w) (resolve w (Path_of p)) None with
      | Some t => (Ok tt, with_root (log w (EvUnlink p)) t)
      | None => (Raise (OSError ENOENT), log w (EvUnlink p))
      end
  end.
Proof.
  unfold unlink, os_unlink. cbn [root log].
  change (resolve (log w (EvUnlink p)) (Path_of p)) with (resolve w (Path_of p)).
  destruct (lookup (root w) (resolve w (Path_of p))) as [[d|es]|]; try reflexivity.
  destruct (set_at (root w) (resolve w (Path_of p)) None); reflexivity.
Qed.

(** The extraction precondition: no regular file, no atool. *)
Lemma handle_extract_not_file src dst w :
  is_file (Path_of src) w = false ->
  handle_extract E src dst w
    = (Raise (SystemExit 1), log w (EvPrint "Error: copied file is not valid")).
Proof. intro H. unfold handle_extract. rewrite H. reflexivity. Qed.

(** Without extraction a failing transport decides the exit status. *)
Lemma main_plain_failure argv0 src dst extra_opts w code w1 :
  should_extract argv0 = false ->
  run_transport E (chosen_transport E argv0 src dst w) src dst extra_opts w
    = (Raise (SystemExit code), w1) ->
  main E argv0 src dst extra_opts w = (Raise (SystemExit code), w1).
Proof.
  intros Hx Hrun. rewrite main_phases. unfold transport_dst, tmp_archive_of.
  rewrite Hx. unfold try_finally, bind. rewrite Hrun. reflexivity.
Qed.

(** With extraction, a transport that fails and leaves nothing at the
    temporary path ends in [FileNotFoundError] from the cleanup, whatever
    the exit status of the child was. *)
Lemma main_extract_failure_masked argv0 src dst extra_opts w code w1 :
  should_extract argv0 = true ->
  run_transport E (chosen_transport E argv0 src dst w) src (mktemp E w) extra_opts w
    = (Raise (SystemExit code), w1) ->
  lookup (root w1) (resolve w1 (Path_of (mktemp E w))) = None ->
  main E argv0 src dst extra_opts w
    = (Raise (OSError ENOENT), log w1 (EvUnlink (mktemp E w))).
Proof.
  intros Hx Hrun Hnone. rewrite main_phases. unfold transport_dst, tmp_archive_of.
  rewrite Hx. unfold try_finally, bind. rewrite Hrun. cbn [cleanup].
  rewrite unlink_spec, Hnone. reflexivity.
Qed.

(** With extraction, whatever the body did, no regular file is left at
    the temporary path; a directory there stays. *)
Lemma main_leaves_no_regular_file argv0 src dst extra_opts w :
  should_extract argv0 = true ->
  (forall w', resolve w' (Path_of (mktemp E w)) <> []) ->
  is_file (Path_of (mktemp E w)) (snd (main E argv0 src dst extra_opts w)) = false.
Proof.
  intros Hx Hne. rewrite main_phases, try_finally_world.
  unfold tmp_archive_of. rewrite Hx. cbn [cleanup].
  generalize (snd ((run_transport E (chosen_transport E argv0 src dst w) src
                      (transport_dst E argv0 dst w) extra_opts ;;
                    after_transport E argv0 dst (Some (mktemp E w))) w)).
  intro w1. rewrite unlink_spec. unfold is_file.
  destruct (lookup (root w1) (resolve w1 (Path_of (mktemp E w)))) as [[d|es]|] eqn:El.
  - destruct (set_at_delete_ok _ _ _ El (Hne w1)) as [t Ht]. rewrite Ht.
    cbn [snd root with_root].
    change (resolve (with_root (log w1 (EvUnlink (mktemp E w))) t) (Path_of (mktemp E w)))
      with (resolve w1 (Path_of (mktemp E w))).
    rewrite (lookup_set_at_same _ _ _ _ Ht). reflexivity.
  - cbn [snd root log].
    change (resolve (log w1 (EvUnlink (mktemp E w))) (Path_of (mktemp E w)))
      with (resolve w1 (Path_of (mktemp E w))).
    rewrite El. reflexivity.
  - cbn [snd root log].
    change (resolve (log w1 (EvUnlink (mktemp E w))) (Path_of (mktemp E w)))
      with (resolve w1 (Path_of (mktemp E w))).
    rewrite El. reflexivity.
Qed.

(** With extraction, a directory at the temporary path when the cleanup
    starts is still there when [main] is left, and the cleanup raises. *)
Lemma main_tmp_directory_survives argv0 src dst extra_opts w es :
  should_extract argv0 = true ->
  lookup
    (root (snd ((run_transport E (chosen_transport E argv0 src dst w) src
                   (mktemp E w) extra_opts ;;
                 after_transport E argv0 dst (Some (mktemp E w))) w)))
    (resolve w (Path_of (mktemp E w))) = Some (Dir es) ->
  fst (main E argv0 src dst extra_opts w) = Raise (OSError EISDIR) /\
  lookup (root (snd (main E argv0 src dst extra_opts w)))
    (resolve w (Path_of (mktemp E w))) = Some (Dir es).
Proof.
  intros Hx. rewrite main_phases. unfold transport_dst, tmp_archive_of.
  rewrite Hx. unfold try_finally. cbn [cleanup].
  destruct ((run_transport E (chosen_transport E argv0 src dst w) src
               (mktemp E w) extra_opts ;;
             after_transport E argv0 dst (Some (mktemp E w))) w) as [r w1] eqn:Eb.
  cbn [snd]. intro Hd.
  assert (Hcwd : cwd w1 = cwd w).
  { pose proof (f_equal snd Eb) as Hw. cbn [snd] in Hw. rewrite <- Hw.
    unfold bind.
    pose proof (run_transport_cwd E (chosen_transport E argv0 src dst w) src
                  (mktemp E w) extra_opts w) as Hrun.
    destruct (run_transport E _ src (mktemp E w) extra_opts w) as [[u|e] w0];
      cbn [snd] in *; [| assumption].
    rewrite after_transport_cwd. assumption. }
  assert (Hres : resolve w1 (Path_of (mktemp E w)) = resolve w (Path_of (mktemp E w)))
    by (unfold resolve; rewrite Hcwd; reflexivity).
  rewrite unlink_spec, Hres, Hd. cbn [fst snd root log]. auto.
Qed.

End MainFacts.

(** C1 (as amended). In every run exactly one transport is started, chosen
    by the first matching rule on the source and on the destination handed
    to the transport, which is the temporary archive path when the run
    extracts and the destination argument otherwise: a URL source gives
    [download_http]; otherwise a remote source or a remote destination so
    handed gives [copy_remote]; otherwise [copy_local].  The chosen transport
    starts one child, [main]'s trace begins with the trace of that
    transport, and whatever [main] starts afterwards is an atool command. *)
Theorem main_selects_transport (E : Env) (argv0 src dst : string)
    (extra_opts : list string) (w : world) :
  let d := transport_dst E argv0 dst w in
  let runs_first (strategy : string -> string -> list string -> M unit) :=
    exists command later,
      executed (snd (strategy src d extra_opts w)) = (executed w ++ [command])%list /\
      (hd "" command = "curl" \/ hd "" command = "rsync") /\
      trace (snd (main E argv0 src dst extra_opts w))
        = (trace (snd (strategy src d extra_opts w)) ++ later)%list /\
      (forall cmd, In (EvExec cmd) later -> is_atool cmd) in
  (is_url (urlparse E) src = Ok true -> runs_first (download_http E)) /\
  (is_url (urlparse E) src = Ok false ->
   is_remote_path src || is_remote_path d = true -> runs_first (copy_remote E)) /\
  (is_url (urlparse E) src = Ok false ->
   is_remote_path src || is_remote_path d = false -> runs_first (copy_local E)) /\
  d = (if should_extract argv0 then mktemp E w else dst).
Proof.
  intros d runs_first.
  assert (Hd : d = (if should_extract argv0 then mktemp E w else dst)).
  { unfold d, transport_dst, tmp_archive_of. destruct (should_extract argv0); reflexivity. }
  assert (Hrun : runs_first (run_transport E (chosen_transport E argv0 src dst w))).
  { destruct (run_transport_executed E (chosen_transport E argv0 src dst w)
                src d extra_opts w) as (command & Hex & Hhd).
    destruct (main_after_transport E argv0 src dst extra_opts w) as (later & Htr & Hat).
    exists command, later. auto. }
  unfold chosen_transport, select_transport in Hrun. fold d in Hrun.
  split; [| split; [| split]].
  - intro Hu. rewrite Hu in Hrun. exact Hrun.
  - intros Hu Hr. rewrite Hu, Hr in Hrun. exact Hrun.
  - intros Hu Hr. rewrite Hu, Hr in Hrun. exact Hrun.
  - exact Hd.
Qed.

Lemma main_selects_transport_witness :
  (exists command later,
     executed (snd (download_http Ref.env "https://example.com/f.tgz" "out" [] Ref.w0))
       = (executed Ref.w0 ++ [command])%list /\
     (hd "" command = "curl" \/ hd "" command = "rsync") /\
     trace (snd (main Ref.env "cpc" "https://example.com/f.tgz" "out" [] Ref.w0))
       = (trace (snd (download_http Ref.env "https://example.com/f.tgz" "out" [] Ref.w0))
          ++ later)%list /\
     (forall cmd, In (EvExec cmd) later -> is_atool cmd)) /\
  (exists command later,
     executed (snd (copy_remote Ref.env "notes.txt" "host:/srv" [] Ref.w0))
       = (executed Ref.w0 ++ [command])%list /\
     (hd "" command = "curl" \/ hd "" command = "rsync") /\
     trace (snd (main Ref.env "cpc" "notes.txt" "host:/srv" [] Ref.w0))
       = (trace (snd (copy_remote Ref.env "notes.txt" "host:/srv" [] Ref.w0))
          ++ later)%list /\
     (forall cmd, In (EvExec cmd) later -> is_atool cmd)) /\
  (exists command later,
     executed (snd (copy_local Ref.env "notes.txt" "out" [] Ref.w0))
       = (executed Ref.w0 ++ [command])%list /\
     (hd "" command = "curl" \/ hd "" command = "rsync") /\
     trace (snd (main Ref.env "cpc" "notes.txt" "out" [] Ref.w0))
       = (trace (snd (copy_local Ref.env "notes.txt" "out" [] Ref.w0)) ++ later)%list /\
     (forall cmd, In (EvExec cmd) later -> is_atool cmd)).
Proof.
  split; [| split].
  - exact (proj1 (main_selects_transport Ref.env "cpc" "https://example.com/f.tgz"
                    "out" [] Ref.w0) eq_refl).
  - exact (proj1 (proj2 (main_selects_transport Ref.env "cpc" "notes.txt"
                           "host:/srv" [] Ref.w0)) eq_refl eq_refl).
  - exact (proj1 (proj2 (proj2 (main_selects_transport Ref.env "cpc" "notes.txt"
                                  "out" [] Ref.w0))) eq_refl eq_refl).
Defined.

(** C1 (as stated) fails: the rule is not applied to the destination
    argument.  In [cpx notes.txt backup@vault:/srv] the source is neither a
    URL nor a remote path and the destination argument is a remote path, so
    the rule as stated asks for the remote sync; the run starts the local
    sync, from the source to the temporary archive.  No choice of the
    destination handed to [copy_remote] makes the run begin as that
    transport does. *)
Lemma main_destination_counterexample :
  ~ (forall (E : Env) (argv0 src dst : string) (extra_opts : list string) (w : world),
       let runs_first (strategy : string -> string -> list string -> M unit) :=
         exists d command later,
           executed (snd (strategy src d extra_opts w)) = (executed w ++ [command])%list /\
           trace (snd (main E argv0 src dst extra_opts w))
             = (trace (snd (strategy src d extra_opts w)) ++ later)%list in
       (is_url (urlparse E) src = Ok true -> runs_first (download_http E)) /\
       (is_url (urlparse E) src = Ok false ->
        is_remote_path src || is_remote_path dst = true -> runs_first (copy_remote E)) /\
       (is_url (urlparse E) src = Ok false ->
        is_remote_path src || is_remote_path dst = false -> runs_first (copy_local E))).
Proof.
  intro H.
  destruct (proj1 (proj2 (H Ref.env "cpx" "notes.txt" "backup@vault:/srv" [] Ref.w0))
              eq_refl eq_refl) as (d & command & later & _ & Htr).
  apply (f_equal (fun l => executed (mkWorld (Dir []) [] l))) in Htr.
  change (executed
            (mkWorld (Dir []) []
               (trace (snd (copy_remote Ref.env "notes.txt" d [] Ref.w0)) ++ later)))
    with (flat_map (fun e => match e with EvExec cmd => [cmd] | _ => [] end)
            (trace (snd (copy_remote Ref.env "notes.txt" d [] Ref.w0)) ++ later))
    in Htr.
  rewrite flat_map_app in Htr.
  change (flat_map (fun e => match e with EvExec cmd => [cmd] | _ => [] end)
            (trace (snd (copy_remote Ref.env "notes.txt" d [] Ref.w0))))
    with (executed (snd (copy_remote Ref.env "notes.txt" d [] Ref.w0))) in Htr.
  unfold copy_remote in Htr. rewrite execute_command_executed in Htr.
  vm_compute in Htr. discriminate.
Qed.

(** C5. When the run extracts and the transport has returned without
    leaving a regular file at the temporary path (a directory, or nothing),
    [main] prints the diagnostic, starts no further child (no atool),
    leaves the file system as the transport left it, and the process ends
    with exit status 1. *)
Theorem extract_precondition_fails_fast (E : Env) (argv0 src dst : string)
    (extra_opts : list string) (w w1 : world) :
  should_extract argv0 = true ->
  run_transport E (chosen_transport E argv0 src dst w) src (mktemp E w) extra_opts w
    = (Ok tt, w1) ->
  is_file (Path_of (mktemp E w)) w1 = false ->
  exit_status (fst (main E argv0 src dst extra_opts w)) = 1%Z /\
  trace (snd (main E argv0 src dst extra_opts w))
    = (trace w1 ++ [EvPrint "Error: copied file is not valid";
                    EvUnlink (mktemp E w)])%list /\
  executed (snd (main E argv0 src dst extra_opts w)) = executed w1 /\
  root (snd (main E argv0 src dst extra_opts w)) = root w1.
Proof.
  intros Hx Hrun Hfile.
  rewrite main_phases. unfold transport_dst, tmp_archive_of. rewrite Hx.
  unfold try_finally, bind. rewrite Hrun.
  unfold after_transport, bind. rewrite (handle_extract_not_file E _ _ _ Hfile).
  cbn [cleanup]. rewrite unlink_spec. cbn [root log].
  change (resolve (log w1 (EvPrint "Error: copied file is not valid"))
            (Path_of (mktemp E w))) with (resolve w1 (Path_of (mktemp E w))).
  unfold is_file in Hfile.
  assert (Hex : forall l, (forall e, In e l -> forall c, e <> EvExec c) ->
                  executed (mkWorld (root w1) (cwd w1) (trace w1 ++ l)) = executed w1).
  { intros l Hl. rewrite executed_app.
    replace (flat_map _ l) with (@nil (list string)); [apply app_nil_r |].
    induction l as [|e l IH]; [reflexivity |]. simpl.
    rewrite <- IH by (intros; apply Hl; right; assumption).
    destruct e; try reflexivity. elim (Hl (EvExec cmd) (or_introl eq_refl) cmd eq_refl). }
  destruct (lookup (root w1) (resolve w1 (Path_of (mktemp E w)))) as [[data|es]|];
    [discriminate | |];
    (repeat split; cbn; [rewrite <- app_assoc; reflexivity |];
     rewrite <- app_assoc;
     apply (Hex [EvPrint "Error: copied file is not valid"; EvUnlink (mktemp E w)]);
     intros e [<-|[<-|[]]] c; discriminate).
Qed.

Lemma extract_precondition_fails_fast_witness :
  exit_status (fst (main Ref.env "cpx" "data/" "out" [] Ref.w0)) = 1%Z /\
  executed (snd (main Ref.env "cpx" "data/" "out" [] Ref.w0))
    = [["rsync"; "-a"; "data/"; "/tmp/tmpk3v9x2qa"]].
Proof.
  destruct (extract_precondition_fails_fast Ref.env "cpx" "data/" "out" [] Ref.w0
              (snd (copy_local Ref.env "data/" "/tmp/tmpk3v9x2qa" [] Ref.w0))
              eq_refl eq_refl eq_refl) as (Hexit & _ & Hexec & _).
  split; [exact Hexit | rewrite Hexec; reflexivity].
Defined.

(** C3, observed at [cpx missing.tgz out]: rsync exits with 23 without
    creating the temporary archive, [execute_command] prints the diagnostic
    and calls [sys.exit(23)], and then the [os.unlink] of the cleanup raises
    [FileNotFoundError] over it: the process ends with exit status 1, not 23. *)
Theorem main_loses_exit_code :
  let run := main Ref.env "cpx" "missing.tgz" "out" [] Ref.w0 in
  let command := ["rsync"; "-a"; "missing.tgz"; "/tmp/tmpk3v9x2qa"] in
  executed (snd run) = [command] /\
  fst (spawn Ref.env command (started Ref.w0 command)) = Exited 23 /\
  execute_command Ref.env command Ref.w0
    = (Raise (SystemExit 23),
       log (started Ref.w0 command)
           (EvPrint "Error executing command: rsync -a missing.tgz /tmp/tmpk3v9x2qa")) /\
  fst run = Raise (OSError ENOENT) /\
  exit_status (fst run) = 1%Z.
Proof. repeat split. Qed.

(** C2, observed at [cpx data/ out]: rsync copies the directory [data] to
    the temporary path, extraction refuses it, and the [os.unlink] of the
    cleanup raises [IsADirectoryError]: the temporary path, which did not
    exist before the run, names a directory after it. *)
Theorem main_leaves_tmp_directory :
  let run := main Ref.env "cpx" "data/" "out" [] Ref.w0 in
  tmp_archive_of Ref.env "cpx" Ref.w0 = Some "/tmp/tmpk3v9x2qa" /\
  lookup (root Ref.w0) (resolve Ref.w0 (Path_of "/tmp/tmpk3v9x2qa")) = None /\
  lookup (root (snd run)) (resolve (snd run) (Path_of "/tmp/tmpk3v9x2qa"))
    = Some (Dir [("a.txt", File "A"); ("b.txt", File "B")]) /\
  fst run = Raise (OSError EISDIR) /\
  last (trace (snd run)) (EvPrint "") = EvUnlink "/tmp/tmpk3v9x2qa".
Proof. repeat split. Qed.

(* ------------------------------------------------------------------ *)
(** ** The spiller *)

Lemma app_last_neq (p q : list string) (n : string) :
  p <> q -> (p ++ [n])%list <> (q ++ [n])%list.
Proof. intros Hne Heq. apply app_inv_tail in Heq. contradiction. Qed.

Lemma is_prefix_snoc_shorter (p q : list string) (n : string) :
  length q <= length p -> p <> q -> is_prefix (p ++ [n]) (q ++ [n]) = false.
Proof.
  intros Hlen Hne. destruct (is_prefix (p ++ [n]) (q ++ [n])) eqn:Hp; [| reflexivity].
  exfalso. pose proof (is_prefix_length _ _ Hp) as Hl.
  rewrite !length_app in Hl. simpl in Hl.
  apply (app_last_neq p q n Hne).
  apply is_prefix_same_length; [assumption |].
  rewrite !length_app. simpl. lia.
Qed.

(** C10. The spill loop terminates on every finite tree: run for more
    rounds than the height of what the current path names, it returns a
    result, the same however many rounds are added, and [handle_spill] is
    that result.  The measure is the height of the tree at the current
    path: a successful single-entry step continues at the only child, which
    is strictly shallower than the directory it was in. *)
Theorem spill_loop_terminates (E : Env) (spill_dir path : Path) (w : world) :
  (exists r, forall extra : nat,
      spill_loop E (S (height_at path w) + extra) spill_dir path w = Some r) /\
  (forall dst : string,
      spill_loop E (S (height_at (Path_of dst) w))
        (Path_parent (Path_of dst)) (Path_of dst) w = Some (handle_spill E dst w)) /\
  (forall n c path' w',
      lookup (root w) (resolve w path) = Some (Dir [(n, c)]) ->
      Path_rename (Path_join path n) (Path_join spill_dir n) w = (Ok path', w') ->
      lookup (root w') (resolve w' path') = Some c /\
      height_at path' w' < height_at path w).
Proof.
  split; [| split].
  - destruct (spill_loop_enough E (S (height_at path w)) spill_dir path w) as [r Hr];
      [lia |].
    exists r. intro extra. apply spill_loop_more. exact Hr.
  - intro dst. apply handle_spill_loop.
  - intros n c path' w' Hes Hr.
    destruct (rename_single_child spill_dir path w n c path' w' Hes Hr) as (_ & Hc & Hh).
    split; assumption.
Qed.

Lemma spill_loop_terminates_witness :
  height_at (Path_of "a") (snd (Path_rename (Path_of "out/a") (Path_of "a") Ex.nested))
  < height_at (Path_of "out") Ex.nested.
Proof.
  apply (proj2 (proj2 (spill_loop_terminates Ref.env (Path_parent (Path_of "out"))
                         (Path_of "out") Ex.nested))
           "a" (Dir [("b", Ex.two_files)]) (Path_of "a")); reflexivity.
Defined.






(** The same run, evaluated. *)
Example handle_spill_same_name :
  handle_spill Ref.env "pkg" Ex.same_name =
  (Raise (OSError ENOTEMPTY),
   log Ex.same_name (EvRename (Path_of "pkg/pkg") (Path_of "pkg"))).
Proof. reflexivity. Qed.

(** With one more single-entry level, [out/a/b/c/{f1,f2}], there are three
    moves and the merge comes in a fourth round. *)
Example handle_spill_deeper :
  spill_loop Ref.env 3 (Path_parent (Path_of "out")) (Path_of "out") Ex.deeper = None /\
  trace (snd (handle_spill Ref.env "out" Ex.deeper)) =
    [EvRename (Path_of "out/a") (Path_of "a");
     EvRename (Path_of "a/b") (Path_of "b");
     EvRename (Path_of "b/c") (Path_of "c");
     EvCopytree (Path_of "c") (Path_of ".")].
Proof. split; reflexivity. Qed.

(** A whole run that meets the refusal: [cpcd data fresh] copies [data] to
    [fresh/data], and the move of [fresh/data] into the parent of [fresh]
    collides with the source directory [data] itself. *)
Example cpcd_collides_with_source :
  fst (main Ref.env "cpcd" "data" "fresh" [] Ref.w0) = Raise (OSError ENOTEMPTY) /\
  last (trace (snd (main Ref.env "cpcd" "data" "fresh" [] Ref.w0))) (EvPrint "")
    = EvRename (Path_of "fresh/data") (Path_of "data").
Proof. split; reflexivity. Qed.

(* ------------------------------------------------------------------ *)
(** ** More on the classifier *)

Lemma has_char_app c a b : has_char c (a ++ b) = has_char c a || has_char c b.
Proof.
  induction a as [|d a IH]; [reflexivity |].
  change (String d a ++ b) with (String d (a ++ b)).
  rewrite !has_char_cons, IH. apply orb_assoc.
Qed.

Lemma remote_form_has_colon user host path :
  has_char ":" (remote_form user host path) = true.
Proof.
  destruct user as [u|]; unfold remote_form; rewrite !has_char_app;
    change (has_char ":" ":") with true; rewrite ?orb_true_r; reflexivity.
Qed.

Lemma remote_form_first_char user host path c rest :
  token host -> (forall u, user = Some u -> token u) ->
  remote_form user host path = String c rest -> host_char c = true.
Proof.
  intros [Hne Hall] Hu Heq. destruct user as [u|]; unfold remote_form in Heq.
  - destruct (Hu u eq_refl) as [Hune Huall].
    destruct u as [|d u]; [congruence |]. simpl in Heq, Huall.
    injection Heq as <- _. apply andb_true_iff in Huall as [Hd _]. exact Hd.
  - destruct host as [|d host]; [congruence |]. simpl in Heq, Hall.
    injection Heq as <- _. apply andb_true_iff in Hall as [Hd _]. exact Hd.
Qed.

Lemma is_remote_path_first_char c rest :
  host_char c = false -> is_remote_path (String c rest) = false.
Proof.
  intro Hc. destruct (is_remote_path (String c rest)) eqn:E; [| reflexivity].
  apply is_remote_path_exact in E as (user & host & d & r & Heq & Hh & Hu & _).
  symmetry in Heq. rewrite (remote_form_first_char _ _ _ _ _ Hh Hu Heq) in Hc.
  discriminate.
Qed.

(** X1. Whatever [is_remote_path] accepts has the shape [user@host:path] or
    [host:path]: user and host are non-empty runs of letters, digits, '.',
    '_' and '-', and a character other than line feed follows the colon. *)
Theorem is_remote_path_only_forms (s : string) :
  is_remote_path s = true ->
  exists user host c rest,
    s = remote_form user host (String c rest) /\
    token host /\ (forall u, user = Some u -> token u) /\ c <> Re.newline.
Proof. apply is_remote_path_exact. Qed.

Lemma is_remote_path_only_forms_witness :
  exists user host c rest,
    "deploy@build-01:out/app.tgz extra" = remote_form user host (String c rest) /\
    token host /\ (forall u, user = Some u -> token u) /\ c <> Re.newline.
Proof.
  apply (is_remote_path_only_forms "deploy@build-01:out/app.tgz extra").
  reflexivity.
Defined.

(** X2. [is_remote_path] never takes for remote a string that begins with a
    character outside the host alphabet (an absolute path, [~/...], a
    leading space), nor a string without a colon, nor the empty string. *)
Theorem is_remote_path_rejects_local :
  (forall c rest, host_char c = false -> is_remote_path (String c rest) = false) /\
  (forall s, has_char ":" s = false -> is_remote_path s = false) /\
  is_remote_path "" = false.
Proof.
  split; [| split].
  - apply is_remote_path_first_char.
  - intros s Hs. destruct (is_remote_path s) eqn:E; [| reflexivity].
    apply is_remote_path_exact in E as (user & host & d & r & -> & _).
    rewrite remote_form_has_colon in Hs. discriminate.
  - reflexivity.
Qed.

Lemma is_remote_path_rejects_local_witness :
  is_remote_path "/srv/backup:2024" = false /\
  is_remote_path "notes.txt" = false.
Proof.
  split.
  - apply (proj1 is_remote_path_rejects_local "/"%char "srv/backup:2024"). reflexivity.
  - apply (proj1 (proj2 is_remote_path_rejects_local) "notes.txt"). reflexivity.
Defined.

(* ------------------------------------------------------------------ *)
(** ** More on [main]: children, exit status, cleanup *)

Lemma executed_extends w w' l :
  trace w' = (trace w ++ l)%list ->
  executed w' =
  (executed w ++ flat_map (fun e => match e with EvExec cmd => [cmd] | _ => [] end) l)%list.
Proof. unfold executed. intros ->. apply flat_map_app. Qed.

Lemma no_exec_nil (l : list event) :
  (forall cmd, ~ In (EvExec cmd) l) ->
  flat_map (fun e => match e with EvExec cmd => [cmd] | _ => [] end) l = [].
Proof.
  induction l as [|e l IH]; intro H; [reflexivity |]. simpl.
  rewrite IH by (intros cmd Hin; apply (H cmd); right; exact Hin).
  destruct e; try reflexivity. elim (H cmd). left. reflexivity.
Qed.

Lemma handle_spill_executed E dst w :
  executed (snd (handle_spill E dst w)) = executed w.
Proof.
  destruct (handle_spill_trace E dst w) as (l & Hl & Hno).
  rewrite (executed_extends _ _ _ Hl), (no_exec_nil _ Hno). apply app_nil_r.
Qed.

Lemma cleanup_executed tmp w : executed (snd (cleanup tmp w)) = executed w.
Proof.
  destruct (cleanup_trace tmp w) as (l & Hl & Hno).
  rewrite (executed_extends _ _ _ Hl), (no_exec_nil _ Hno). apply app_nil_r.
Qed.

Lemma handle_extract_executed E src dst w :
  executed (snd (handle_extract E src dst w)) =
  (executed w ++
   if is_file (Path_of src) w
   then [["atool"; Path_str (Path_of src); "--extract-to"; dst]] else [])%list.
Proof.
  unfold handle_extract. destruct (is_file (Path_of src) w); cbn [negb].
  - apply execute_command_executed.
  - unfold executed. cbn. rewrite flat_map_app. cbn. reflexivity.
Qed.

Lemma after_transport_executed E argv0 dst tmp w :
  executed (snd (after_transport E argv0 dst tmp w)) =
  (executed w ++
   match tmp with
   | Some t => if is_file (Path_of t) w
               then [["atool"; Path_str (Path_of t); "--extract-to"; dst]] else []
   | None => []
   end)%list.
Proof.
  assert (Hspill : forall d w0,
             executed (snd ((if should_dig argv0 then handle_spill E d else ret tt) w0))
             = executed w0).
  { intros d w0. destruct (should_dig argv0); [apply handle_spill_executed | reflexivity]. }
  unfold after_transport, bind. destruct tmp as [t|].
  - pose proof (handle_extract_executed E t dst w) as Hx.
    destruct (handle_extract E t dst w) as [[u|e] w1]; cbn [snd] in *.
    + cbn [ret]. rewrite Hspill. exact Hx.
    + exact Hx.
  - cbn [ret]. rewrite Hspill, app_nil_r. reflexivity.
Qed.

(** The children of a run: those of the chosen transport, then at most the
    one atool. *)
Lemma main_executed E argv0 src dst extra_opts w :
  exists rest,
    executed (snd (main E argv0 src dst extra_opts w)) =
      (executed (snd (run_transport E (chosen_transport E argv0 src dst w) src
                        (transport_dst E argv0 dst w) extra_opts w)) ++ rest)%list /\
    (rest = [] \/
     should_extract argv0 = true /\
     rest = [["atool"; Path_str (Path_of (mktemp E w)); "--extract-to"; dst]]) /\
    (forall e w1,
       run_transport E (chosen_transport E argv0 src dst w) src
         (transport_dst E argv0 dst w) extra_opts w = (Raise e, w1) -> rest = []).
Proof.
  rewrite main_phases, try_finally_world, cleanup_executed. unfold bind.
  destruct (run_transport E _ src _ extra_opts w) as [[u|e] w1]; cbn [snd].
  - rewrite after_transport_executed. eexists. split; [reflexivity |]. split.
    + unfold tmp_archive_of. destruct (should_extract argv0); [| left; reflexivity].
      destruct (is_file (Path_of (mktemp E w)) w1); [right; auto | left; reflexivity].
    + intros e w2 H. discriminate.
  - exists []. rewrite app_nil_r. auto.
Qed.

(** X3. A run starts one transport child and then at most one more child,
    which is [atool <temporary archive> --extract-to <destination as given>]
    and occurs only when the run extracts; it never starts a second
    transport, and nothing at all after a transport that failed. *)
Theorem main_children (E : Env) (argv0 src dst : string)
    (extra_opts : list string) (w : world) :
  exists command rest,
    executed (snd (main E argv0 src dst extra_opts w))
      = (executed w ++ command :: rest)%list /\
    (hd "" command = "curl" \/ hd "" command = "rsync") /\
    (rest = [] \/
     should_extract argv0 = true /\
     rest = [["atool"; Path_str (Path_of (mktemp E w)); "--extract-to"; dst]]) /\
    (forall e w1,
       run_transport E (chosen_transport E argv0 src dst w) src
         (transport_dst E argv0 dst w) extra_opts w = (Raise e, w1) -> rest = []).
Proof.
  destruct (main_executed E argv0 src dst extra_opts w) as (rest & Hex & Hrest & Hfail).
  destruct (run_transport_executed E (chosen_transport E argv0 src dst w) src
              (transport_dst E argv0 dst w) extra_opts w) as (command & Hc & Hhd).
  exists command, rest. rewrite Hex, Hc, <- app_assoc. auto.
Qed.

Lemma main_children_witness :
  exists command,
    executed (snd (main Ref.env "cpx" "missing.tgz" "out" [] Ref.w0)) = [command].
Proof.
  destruct (main_children Ref.env "cpx" "missing.tgz" "out" [] Ref.w0)
    as (command & rest & Hex & _ & _ & Hfail).
  exists command. rewrite Hex.
  assert (Hrest : rest = []) by (eapply (Hfail (SystemExit 23)); reflexivity).
  rewrite Hrest. reflexivity.
Defined.

Lemma run_transport_is_command E t src dst extra_opts w :
  exists command,
    run_transport E t src dst extra_opts w = execute_command E command w /\
    (hd "" command = "curl" \/ hd "" command = "rsync").
Proof.
  destruct t; cbn [run_transport]; unfold download_http, copy_remote, copy_local.
  - eexists. split; [reflexivity |]. destruct (is_dir (Path_of dst) w); auto.
  - eexists. split; [reflexivity | auto].
  - eexists. split; [reflexivity | auto].
Qed.

(** Without extraction and without spill, [main] is its transport. *)
Lemma main_plain_is_transport E argv0 src dst extra_opts w :
  should_extract argv0 = false -> should_dig argv0 = false ->
  main E argv0 src dst extra_opts w =
  run_transport E (chosen_transport E argv0 src dst w) src dst extra_opts w.
Proof.
  intros Hx Hd. rewrite main_phases.
  unfold transport_dst, tmp_archive_of, after_transport. rewrite Hx, Hd.
  unfold try_finally, bind, cleanup, ret.
  destruct (run_transport E _ src dst extra_opts w) as [[[]|e] w1]; reflexivity.
Qed.

(** X4. Called under a name that neither starts with [cpx] nor ends with
    [d], the program is nothing but its one transport command: its exit
    status is the return code of that child modulo 256 (the code itself from
    0 to 255, zero included; 247 after a child killed by signal 9, whose
    return code is -9), it leaves the file system as the child left it, and
    it has started no other child. *)
Theorem main_plain_exit_status (E : Env) (argv0 src dst : string)
    (extra_opts : list string) (w : world) :
  should_extract argv0 = false ->
  should_dig argv0 = false ->
  exists command,
    (hd "" command = "curl" \/ hd "" command = "rsync") /\
    main E argv0 src dst extra_opts w = execute_command E command w /\
    (forall code t,
       spawn E command (started w command) = (Exited code, t) ->
       exit_status (fst (main E argv0 src dst extra_opts w)) = (code mod 256)%Z /\
       ((0 <= code < 256)%Z ->
        exit_status (fst (main E argv0 src dst extra_opts w)) = code) /\
       root (snd (main E argv0 src dst extra_opts w)) = t /\
       executed (snd (main E argv0 src dst extra_opts w))
         = (executed w ++ [command])%list).
Proof.
  intros Hx Hd.
  destruct (run_transport_is_command E (chosen_transport E argv0 src dst w)
              src dst extra_opts w) as (command & Hrun & Hhd).
  exists command. split; [exact Hhd |].
  rewrite (main_plain_is_transport E argv0 src dst extra_opts w Hx Hd), Hrun.
  split; [reflexivity |].
  intros code t Hsp. rewrite execute_command_executed, execute_command_spec, Hsp.
  assert (Hst : exit_status (fst (if (code =? 0)%Z
                  then (Ok tt, with_root (started w command) t)
                  else (Raise (SystemExit code),
                        log (with_root (started w command) t)
                          (EvPrint ("Error executing command: " ++ join " " command)))))
                = (code mod 256)%Z).
  { destruct (Z.eqb_spec code 0) as [->|Hne]; reflexivity. }
  split; [exact Hst |]. split.
  - intro Hrange. rewrite Hst. apply Z.mod_small. exact Hrange.
  - destruct (code =? 0)%Z; split; reflexivity.
Qed.

Lemma main_plain_exit_status_witness :
  exit_status (fst (main Ref.env "cpc" "missing.txt" "out" ["-v"] Ref.w0)) = 23%Z /\
  exit_status (fst (main Ref.env "/usr/bin/cpc" "notes.txt" "out" [] Ref.w0)) = 0%Z /\
  exit_status (fst (main Ref.killed "cpc" "notes.txt" "out" [] Ref.w0)) = 247%Z.
Proof.
  split; [| split].
  - destruct (main_plain_exit_status Ref.env "cpc" "missing.txt" "out" ["-v"] Ref.w0
                eq_refl eq_refl) as (command & _ & Hmain & Hcode).
    assert (Hc : command = ["rsync"; "-a"; "-v"; "missing.txt"; "out"]).
    { apply (f_equal (fun r => executed (snd r))) in Hmain.
      rewrite execute_command_executed in Hmain. vm_compute in Hmain.
      injection Hmain as Hmain. symmetry. exact Hmain. }
    subst command.
    apply (proj1 (proj2 (Hcode 23%Z (root Ref.w0) eq_refl))). lia.
  - destruct (main_plain_exit_status Ref.env "/usr/bin/cpc" "notes.txt" "out" [] Ref.w0
                eq_refl eq_refl) as (command & _ & Hmain & Hcode).
    assert (Hc : command = ["rsync"; "-a"; "notes.txt"; "out"]).
    { apply (f_equal (fun r => executed (snd r))) in Hmain.
      rewrite execute_command_executed in Hmain. vm_compute in Hmain.
      injection Hmain as Hmain. symmetry. exact Hmain. }
    subst command.
    apply (proj1 (proj2
             (Hcode 0%Z (snd (spawn Ref.env ["rsync"; "-a"; "notes.txt"; "out"]
                                (started Ref.w0 ["rsync"; "-a"; "notes.txt"; "out"])))
                eq_refl))).
    lia.
  - destruct (main_plain_exit_status Ref.killed "cpc" "notes.txt" "out" [] Ref.w0
                eq_refl eq_refl) as (command & _ & _ & Hcode).
    exact (proj1 (Hcode (-9)%Z (root Ref.w0) eq_refl)).
Defined.



(** X6. When the run extracts, the destination argument has no part in the
    choice of the transport: with a temporary path that is absolute and a
    source that is not a URL, the first child is rsync from the source to
    the temporary path, with the progress flag exactly when the source is a
    remote path. *)
Theorem extraction_ignores_destination (E : Env) (argv0 src dst : string)
    (extra_opts : list string) (w : world) (name : string) :
  should_extract argv0 = true ->
  mktemp E w = String "/" name ->
  is_url (urlparse E) src = Ok false ->
  exists rest,
    executed (snd (main E argv0 src dst extra_opts w)) =
    (executed w ++
     (["rsync"; "-a"] ++ (if is_remote_path src then ["--info=progress2"] else [])
        ++ extra_opts ++ [src; mktemp E w]) :: rest)%list.
Proof.
  intros Hx Htmp Hu.
  destruct (main_executed E argv0 src dst extra_opts w) as (rest & Hex & _).
  exists rest. rewrite Hex. clear Hex.
  unfold chosen_transport, transport_dst, tmp_archive_of, select_transport.
  rewrite Hx, Hu.
  assert (Hlocal : is_remote_path (mktemp E w) = false)
    by (rewrite Htmp; apply is_remote_path_first_char; reflexivity).
  rewrite Hlocal, orb_false_r.
  destruct (is_remote_path src); cbn [run_transport]; unfold copy_remote, copy_local;
    rewrite execute_command_executed, <- app_assoc; reflexivity.
Qed.

Lemma extraction_ignores_destination_witness :
  exists rest,
    executed (snd (main Ref.env "cpx" "notes.txt" "backup@vault:/srv" [] Ref.w0)) =
    ["rsync"; "-a"; "notes.txt"; "/tmp/tmpk3v9x2qa"] :: rest.
Proof.
  exact (extraction_ignores_destination Ref.env "cpx" "notes.txt" "backup@vault:/srv"
           [] Ref.w0 "tmp/tmpk3v9x2qa" eq_refl eq_refl eq_refl).
Defined.

(** X7. When the program of a command cannot be started, [execute_command]
    lets the [OSError] through: no diagnostic is printed (only the line that
    announces the command), nothing is turned into [SystemExit], and the
    interpreter would end with status 1. *)
Theorem execute_command_cannot_start (E : Env) (command : list string)
    (w : world) (e : errno) (t : node) :
  spawn E command (started w command) = (NotStarted e, t) ->
  fst (execute_command E command w) = Raise (OSError e) /\
  exit_status (fst (execute_command E command w)) = 1%Z /\
  printed (snd (execute_command E command w))
    = (printed w ++ [("Executing command: " ++ join " " command)%string])%list /\
  executed (snd (execute_command E command w)) = (executed w ++ [command])%list.
Proof.
  intro Hsp. rewrite execute_command_executed, execute_command_spec, Hsp. cbn.
  repeat split. unfold printed. cbn. rewrite !flat_map_app. cbn.
  rewrite app_nil_r. reflexivity.
Qed.

Lemma execute_command_cannot_start_witness :
  fst (execute_command Ref.env ["scp"; "a"; "b"] Ref.w0) = Raise (OSError ENOENT) /\
  printed (snd (execute_command Ref.env ["scp"; "a"; "b"] Ref.w0))
    = ["Executing command: scp a b"].
Proof.
  destruct (execute_command_cannot_start Ref.env ["scp"; "a"; "b"] Ref.w0 ENOENT
              (root Ref.w0) eq_refl) as (Hr & _ & Hp & _).
  split; [exact Hr | exact Hp].
Defined.

(** X8. After a transport that raised, [main] does nothing but the cleanup:
    no atool, no rename, no merge.  Its trace is the trace of the transport,
    followed by the unlink when the run extracts, and without extraction
    [main] ends exactly as the transport ended, spill mode or not. *)
Theorem main_fails_fast (E : Env) (argv0 src dst : string)
    (extra_opts : list string) (w w1 : world) (e : exn) :
  run_transport E (chosen_transport E argv0 src dst w) src
    (transport_dst E argv0 dst w) extra_opts w = (Raise e, w1) ->
  trace (snd (main E argv0 src dst extra_opts w))
    = (trace w1 ++ if should_extract argv0 then [EvUnlink (mktemp E w)] else [])%list /\
  (should_extract argv0 = false ->
   main E argv0 src dst extra_opts w = (Raise e, w1)).
Proof.
  intro Hrun. rewrite main_phases. unfold try_finally, bind. rewrite Hrun.
  unfold tmp_archive_of. destruct (should_extract argv0); cbn [cleanup].
  - split; [| discriminate]. rewrite unlink_spec.
    destruct (lookup (root w1) (resolve w1 (Path_of (mktemp E w)))) as [[d|es]|];
      try reflexivity.
    destruct (set_at (root w1) (resolve w1 (Path_of (mktemp E w))) None); reflexivity.
  - cbn. rewrite app_nil_r. auto.
Qed.

Lemma main_fails_fast_witness :
  main Ref.env "cpcd" "missing" "out" [] Ref.w0
  = copy_local Ref.env "missing" "out" [] Ref.w0.
Proof.
  apply (proj2 (main_fails_fast Ref.env "cpcd" "missing" "out" [] Ref.w0
                  (snd (copy_local Ref.env "missing" "out" [] Ref.w0))
                  (SystemExit 23) eq_refl)).
  reflexivity.
Defined.

(* ------------------------------------------------------------------ *)
(** ** The modes of [main], read off the program name *)

Lemma split_on_not_nil sep s : split_on sep s <> [].
Proof.
  destruct s as [|c s]; simpl; [discriminate |].
  destruct (Ascii.eqb c sep); [discriminate |].
  destruct (split_on sep s); discriminate.
Qed.

Lemma split_on_sep_app sep a b :
  split_on sep (a ++ String sep b) = (split_on sep a ++ split_on sep b)%list.
Proof.
  induction a as [|c a IH].
  - simpl. rewrite Ascii.eqb_refl. reflexivity.
  - change (String c a ++ String sep b) with (String c (a ++ String sep b)).
    cbn [split_on]. rewrite IH.
    destruct (Ascii.eqb c sep); [reflexivity |].
    pose proof (split_on_not_nil sep a) as Hne.
    destruct (split_on sep a) as [|h t]; [congruence | reflexivity].
Qed.

Lemma Path_name_plain name :
  keep_name name = true -> has_char "/" name = false ->
  Path_name (Path_of name) = name.
Proof.
  intros Hk Hs. unfold Path_name, Path_of. cbn [names].
  rewrite (split_on_plain _ _ Hs). cbn [filter]. rewrite Hk. reflexivity.
Qed.

Lemma Path_name_below dir name :
  keep_name name = true -> has_char "/" name = false ->
  Path_name (Path_of (dir ++ "/" ++ name)) = name.
Proof.
  intros Hk Hs. unfold Path_name, Path_of. cbn [names].
  change (dir ++ "/" ++ name) with (dir ++ String "/" name).
  rewrite split_on_sep_app, filter_app, (split_on_plain _ _ Hs).
  cbn [filter]. rewrite Hk. apply last_last.
Qed.

Lemma rev_string_app s t : rev_string (s ++ t) = rev_string t ++ rev_string s.
Proof.
  induction s as [|c s IH]; simpl.
  - rewrite append_nil_r. reflexivity.
  - rewrite IH, append_assoc. reflexivity.
Qed.

Lemma prefix_app p s : String.prefix p (p ++ s) = true.
Proof.
  induction p as [|c p IH]; simpl; [destruct s; reflexivity |].
  destruct (ascii_dec c c) as [_|Hne]; [exact IH | congruence].
Qed.

(** X9. The two modes depend on the last component of [sys.argv[0]] only:
    the directory the program is called from plays no part.  A name that
    starts with [cpx] turns extraction on, a name that ends with [d] turns
    the spill on, and the two are independent (so [cpxd] has both). *)
Theorem modes_from_basename (dir name : string) :
  keep_name name = true ->
  has_char "/" name = false ->
  (should_extract (dir ++ "/" ++ name) = startswith "cpx" name /\
   should_dig (dir ++ "/" ++ name) = endswith "d" name) /\
  (should_extract name = startswith "cpx" name /\
   should_dig name = endswith "d" name) /\
  (forall rest, startswith "cpx" ("cpx" ++ rest) = true) /\
  (forall front, endswith "d" (front ++ "d") = true).
Proof.
  intros Hk Hs. unfold should_extract, should_dig.
  rewrite (Path_name_below dir name Hk Hs), (Path_name_plain name Hk Hs).
  repeat split.
  - intro rest. unfold startswith. apply prefix_app.
  - intro front. unfold endswith. rewrite rev_string_app. apply prefix_app.
Qed.

Lemma modes_from_basename_witness :
  should_extract "/usr/local/bin/cpxd" = true /\
  should_dig "/usr/local/bin/cpxd" = true /\
  should_extract "./cpcd" = false /\
  should_dig "./cpcd" = true.
Proof.
  destruct (modes_from_basename "/usr/local/bin" "cpxd" eq_refl eq_refl)
    as ((Hx & Hd) & _).
  destruct (modes_from_basename "." "cpcd" eq_refl eq_refl) as ((Hx' & Hd') & _).
  split; [exact Hx | split; [exact Hd | split; [exact Hx' | exact Hd']]].
Defined.

(* ------------------------------------------------------------------ *)
(** ** The spill loop on a chain of single-entry directories *)

(** Writing below [P] is writing in what [P] names. *)
Lemma set_at_under P : forall t u q v t',
  lookup t P = Some u -> q <> [] ->
  set_at t (P ++ q) v = Some t' ->
  exists u', set_at u q v = Some u' /\ lookup t' P = Some u'.
Proof.
  induction P as [|a P IH]; intros t u q v t' Hl Hq Hs.
  - simpl in Hl. injection Hl as <-. exists t'. auto.
  - simpl in Hl. destruct t as [d|es]; [discriminate |].
    destruct (assoc a es) as [c|] eqn:Ea; [| discriminate].
    change ((a :: P) ++ q)%list with (a :: (P ++ q))%list in Hs.
    destruct (P ++ q)%list as [|b l] eqn:Epq.
    { apply app_eq_nil in Epq as [_ ->]. congruence. }
    rewrite set_at_deeper, Ea in Hs.
    destruct (set_at c (b :: l) v) as [c'|] eqn:Ec; [| discriminate].
    injection Hs as <-. rewrite <- Epq in Ec.
    destruct (IH c u q v c' Hl Hq Ec) as (u' & Hu & Hl').
    exists u'. split; [exact Hu |].
    cbn [lookup]. rewrite assoc_set_entry_same. exact Hl'.
Qed.

(** Moving the only entry [n] of [P/x] up into [P], where nothing is named
    [n]: [P/x] is left empty and [P] gains [n]. *)
Lemma os_rename_up t P pes x n c :
  lookup t P = Some (Dir pes) ->
  assoc x pes = Some (Dir [(n, c)]) ->
  assoc n pes = None ->
  exists t',
    os_rename t ((P ++ [x]) ++ [n]) (P ++ [n]) = Ok t' /\
    lookup t' P = Some (Dir (set_entry n (Some c) (set_entry x (Some (Dir [])) pes))).
Proof.
  intros Hp Hx Hn.
  assert (Hsrc : lookup t ((P ++ [x]) ++ [n]) = Some c).
  { rewrite (lookup_child t (P ++ [x]) n [(n, c)]).
    - simpl. rewrite String.eqb_refl. reflexivity.
    - rewrite (lookup_child _ _ x _ Hp). exact Hx. }
  assert (Hdst : lookup t (P ++ [n]) = None)
    by (rewrite (lookup_child _ _ n _ Hp); exact Hn).
  assert (Hne : (P ++ [x])%list <> P).
  { intro H. apply (f_equal (@length string)) in H. rewrite length_app in H.
    simpl in H. lia. }
  assert (Hpre : is_prefix ((P ++ [x]) ++ [n]) (P ++ [n]) = false).
  { apply is_prefix_snoc_shorter; [rewrite length_app; lia | exact Hne]. }
  unfold os_rename. rewrite Hsrc.
  destruct (same_path ((P ++ [x]) ++ [n]) (P ++ [n])) eqn:Esame.
  { apply same_path_eq in Esame. rewrite Esame, Hdst in Hsrc. discriminate. }
  rewrite Hpre, Hdst, removelast_last, Hp.
  destruct (set_at_delete_ok ((P ++ [x]) ++ [n]) t c Hsrc) as [t1 H1].
  { destruct (P ++ [x])%list; discriminate. }
  rewrite H1.
  assert (H1' : set_at t (P ++ [x; n]) None = Some t1).
  { rewrite <- H1. f_equal. rewrite <- app_assoc. reflexivity. }
  destruct (set_at_under P t (Dir pes) [x; n] None t1 Hp) as (u1 & Hu1 & Hl1);
    [discriminate | exact H1' |].
  rewrite set_at_deeper, Hx in Hu1. cbn [set_at set_entry] in Hu1.
  rewrite String.eqb_refl in Hu1. injection Hu1 as <-.
  destruct (set_at_put_ok (P ++ [n]) t1 (set_entry x (Some (Dir [])) pes) (Some c))
    as [t2 H2].
  { rewrite removelast_last. exact Hl1. }
  { destruct P; discriminate. }
  rewrite H2. exists t2. split; [reflexivity |].
  destruct (set_at_under P t1 _ [n] (Some c) t2 Hl1) as (u2 & Hu2 & Hl2);
    [discriminate | exact H2 |].
  cbn [set_at] in Hu2. injection Hu2 as <-. exact Hl2.
Qed.

Lemma arrival_cons sd cur n ns :
  arrival sd cur (n :: ns) = arrival sd (Path_join sd n) ns.
Proof. destruct ns; reflexivity. Qed.

Lemma last_cons_default (ns : list string) : forall n x : string,
  last (n :: ns) x = last ns n.
Proof.
  induction ns as [|m ns IH]; intros n x; [reflexivity |].
  change (last (n :: m :: ns) x) with (last (m :: ns) x).
  rewrite (IH m x), (IH m n). reflexivity.
Qed.

Section Chain.

Variable E : Env.
Variable sd : Path.

(** The loop walks down a chain in as many rounds as the chain has links. *)
Lemma spill_loop_chain ns : forall x p w pes bottom,
  resolve w p = (resolve w sd ++ [x])%list ->
  lookup (root w) (resolve w sd) = Some (Dir pes) ->
  assoc x pes = Some (chain ns bottom) ->
  NoDup ns ->
  (forall n, In n ns -> assoc n pes = None) ->
  exists w' pes',
    (forall f, spill_loop E (length ns + f) sd p w
               = spill_loop E f sd (arrival sd p ns) w') /\
    trace w' = (trace w ++ moves sd p ns)%list /\
    cwd w' = cwd w /\
    lookup (root w') (resolve w sd) = Some (Dir pes') /\
    assoc (last ns x) pes' = Some bottom /\
    (forall y, In y (removelast (x :: ns)) -> assoc y pes' = Some (Dir [])) /\
    (forall y, y <> x -> ~ In y ns -> assoc y pes' = assoc y pes).
Proof.
  induction ns as [|n ns IH]; intros x p w pes bottom Hres Hp Hx Hnd Hfresh.
  - exists w, pes. cbn. rewrite app_nil_r. repeat split; auto. intros y [].
  - cbn [chain] in Hx.
    assert (Hn : assoc n pes = None) by (apply Hfresh; left; reflexivity).
    assert (Hxn : x <> n) by (intros ->; congruence).
    inversion Hnd as [|n' ns' Hnotin Hnd']; subst.
    destruct (os_rename_up (root w) (resolve w sd) pes x n (chain ns bottom) Hp Hx Hn)
      as (t' & Hren & Hp').
    set (w1 := with_root (log w (EvRename (Path_join p n) (Path_join sd n))) t').
    assert (Hhere : lookup (root w) (resolve w p) = Some (Dir [(n, chain ns bottom)])).
    { rewrite Hres, (lookup_child _ _ x _ Hp). exact Hx. }
    assert (Hstep : forall f, spill_loop E (S (length ns + f)) sd p w
                              = spill_loop E (length ns + f) sd (Path_join sd n) w1).
    { intro f. rewrite (spill_loop_single E _ sd p w n _ Hhere), Path_rename_spec.
      rewrite !resolve_join, Hres, Hren. reflexivity. }
    destruct (IH n (Path_join sd n) w1
                (set_entry n (Some (chain ns bottom)) (set_entry x (Some (Dir [])) pes))
                bottom) as (w' & pes' & Hloop & Htr & Hcwd & Hp'' & Hlast & Hempty & Hframe).
    + apply resolve_join.
    + exact Hp'.
    + apply assoc_set_entry_same.
    + exact Hnd'.
    + intros m Hm.
      assert (Hmn : m <> n) by (intros ->; contradiction).
      assert (Hm' : assoc m pes = None) by (apply Hfresh; right; exact Hm).
      assert (Hmx : m <> x) by (intros ->; congruence).
      rewrite !assoc_set_entry_other by assumption. exact Hm'.
    + exists w', pes'. split; [| split; [| split; [| split; [| split; [| split]]]]].
      * intro f. cbn [length Nat.add]. rewrite Hstep, arrival_cons. apply Hloop.
      * rewrite Htr. cbn [moves]. unfold w1. cbn [trace with_root log].
        rewrite <- app_assoc. reflexivity.
      * rewrite Hcwd. reflexivity.
      * exact Hp''.
      * rewrite last_cons_default. exact Hlast.
      * intros y Hy. change (removelast (x :: n :: ns)) with (x :: removelast (n :: ns)) in Hy.
        destruct Hy as [<-|Hy]; [| apply Hempty; exact Hy].
        rewrite Hframe.
        -- rewrite assoc_set_entry_other by congruence. apply assoc_set_entry_same.
        -- exact Hxn.
        -- intro Hin. assert (assoc x pes = None) by (apply Hfresh; right; exact Hin).
           congruence.
      * intros y Hyx Hyn. rewrite Hframe.
        -- rewrite !assoc_set_entry_other; [reflexivity | congruence |].
           intros ->. apply Hyn. left. reflexivity.
        -- intros ->. apply Hyn. left. reflexivity.
        -- intro Hin. apply Hyn. right. exact Hin.
Qed.

End Chain.

Lemma spill_loop_handle E k dst w r :
  spill_loop E k (Path_parent (Path_of dst)) (Path_of dst) w = Some r ->
  handle_spill E dst w = r.
Proof.
  intro H. pose proof (handle_spill_loop E dst w) as Hh.
  apply (spill_loop_more E _ _ _ _ _ (S (height_at (Path_of dst) w))) in H.
  apply (spill_loop_more E _ _ _ _ _ k) in Hh.
  rewrite Nat.add_comm, H in Hh. congruence.
Qed.

Lemma resolve_parent_name w p :
  names p <> [] ->
  resolve w p = (resolve w (Path_parent p) ++ [Path_name p])%list.
Proof.
  intro Hne. unfold resolve, Path_parent, Path_name. cbn [anchor names].
  destruct (String.eqb (anchor p) "").
  - rewrite <- app_assoc. f_equal. apply app_removelast_last. exact Hne.
  - apply app_removelast_last. exact Hne.
Qed.

(** X10. Spill of a destination that is the top of a chain of [k]
    single-entry directories whose names are distinct and unused in the
    parent of the destination: the loop makes exactly [k] moves, one per
    link and in order, and then stops at the bottom of the chain, with a
    merge into the parent when the bottom is a directory with no entry or
    several ([k] rounds are not enough, [k + 1] are), with nothing more when
    it is a file.  Afterwards the parent holds the bottom under the name of
    the last link, the destination and every directory moved before the
    last are still there and empty, and the other entries of the parent are
    as they were. *)
Theorem handle_spill_chain (E : Env) (dst : string) (w : world)
    (pes : list (string * node)) (ns : list string) (bottom : node) :
  let p := Path_of dst in
  let sd := Path_parent p in
  names p <> [] ->
  lookup (root w) (resolve w sd) = Some (Dir pes) ->
  assoc (Path_name p) pes = Some (chain ns bottom) ->
  NoDup ns ->
  (forall n, In n ns -> assoc n pes = None) ->
  exists w' pes',
    trace w' = (trace w ++ moves sd p ns)%list /\
    lookup (root w') (resolve w sd) = Some (Dir pes') /\
    assoc (last ns (Path_name p)) pes' = Some bottom /\
    (forall y, In y (removelast (Path_name p :: ns)) -> assoc y pes' = Some (Dir [])) /\
    (forall y, y <> Path_name p -> ~ In y ns -> assoc y pes' = assoc y pes) /\
    (forall data, bottom = File data -> handle_spill E dst w = (Ok tt, w')) /\
    (forall es, bottom = Dir es -> length es <> 1 ->
       handle_spill E dst w = shutil_copytree E (arrival sd p ns) sd w' /\
       spill_loop E (length ns) sd p w = None).
Proof.
  intros p sd Hne Hp Hx Hnd Hfresh.
  destruct (spill_loop_chain E sd ns (Path_name p) p w pes bottom
              (resolve_parent_name w p Hne) Hp Hx Hnd Hfresh)
    as (w' & pes' & Hloop & Htr & Hcwd & Hp' & Hlast & Hempty & Hframe).
  assert (Hbottom : lookup (root w') (resolve w' (arrival sd p ns)) = Some bottom).
  { assert (Hres : resolve w' (arrival sd p ns)
                   = (resolve w sd ++ [last ns (Path_name p)])%list).
    { unfold resolve at 1. rewrite Hcwd. fold (resolve w (arrival sd p ns)).
      destruct ns as [|n ns']; cbn [arrival last].
      - apply resolve_parent_name. exact Hne.
      - rewrite resolve_join. f_equal. f_equal.
        destruct ns' as [|m l]; [reflexivity |].
        rewrite (last_cons_default l m ""), (last_cons_default l m (Path_name p)).
        reflexivity. }
    rewrite Hres, (lookup_child _ _ _ _ Hp'). exact Hlast. }
  exists w', pes'.
  split; [exact Htr |]. split; [exact Hp' |]. split; [exact Hlast |].
  split; [exact Hempty |]. split; [exact Hframe |]. split.
  - intros data ->. apply (spill_loop_handle E (length ns + 0)). fold p sd.
    rewrite Hloop. apply spill_loop_not_dir. unfold is_dir. rewrite Hbottom. reflexivity.
  - intros es -> Hlen. split.
    + apply (spill_loop_handle E (length ns + 1)). fold p sd.
      rewrite Hloop. apply (spill_loop_merge E 0 sd _ w' es Hbottom Hlen).
    + rewrite <- (Nat.add_0_r (length ns)), Hloop. cbn [spill_loop].
      unfold is_dir. rewrite Hbottom. reflexivity.
Qed.

Lemma handle_spill_chain_witness :
  exists w',
    handle_spill Ref.env "out" Ex.deeper
      = shutil_copytree Ref.env (Path_of "c") (Path_of ".") w' /\
    spill_loop Ref.env 3 (Path_of ".") (Path_of "out") Ex.deeper = None /\
    trace w' = [EvRename (Path_of "out/a") (Path_of "a");
                EvRename (Path_of "a/b") (Path_of "b");
                EvRename (Path_of "b/c") (Path_of "c")].
Proof.
  destruct (handle_spill_chain Ref.env "out" Ex.deeper
              [("out", Dir [("a", Dir [("b", Dir [("c", Ex.two_files)])])])]
              ["a"; "b"; "c"] Ex.two_files)
    as (w' & pes' & Htr & _ & _ & _ & _ & _ & Hdir).
  - discriminate.
  - reflexivity.
  - reflexivity.
  - repeat constructor; simpl; intuition discriminate.
  - intros n [<-|[<-|[<-|[]]]]; reflexivity.
  - destruct (Hdir _ eq_refl) as [Hh Hnone]; [simpl; lia |].
    exists w'. split; [exact Hh | split; [exact Hnone | exact Htr]].
Defined.

(** X11. Spill of a destination that is its own parent ([.], [./], the
    default destination, or [/]): a directory there with no entry or with
    several is merged into itself, and when it has exactly one entry the
    first move renames that entry onto itself, which changes nothing, and
    the loop goes on below it. *)
Theorem handle_spill_own_parent (E : Env) (dst : string) (w : world) :
  let p := Path_of dst in
  names p = [] ->
  Path_parent p = p /\
  (forall es,
     lookup (root w) (resolve w p) = Some (Dir es) -> length es <> 1 ->
     handle_spill E dst w = shutil_copytree E p p w) /\
  (forall n c fuel,
     lookup (root w) (resolve w p) = Some (Dir [(n, c)]) ->
     spill_loop E (S fuel) p p w
       = spill_loop E fuel p (Path_join p n)
           (log w (EvRename (Path_join p n) (Path_join p n)))).
Proof.
  intros p Hn.
  assert (Hpar : Path_parent p = p).
  { unfold Path_parent. rewrite Hn. destruct p as [a l]. cbn in *. subst l. reflexivity. }
  split; [exact Hpar |]. split.
  - intros es Hes Hlen. apply (spill_loop_handle E 1). fold p. rewrite Hpar.
    apply (spill_loop_merge E 0 p p w es Hes Hlen).
  - intros n c fuel Hes.
    rewrite (spill_loop_single E fuel p p w n c Hes), Path_rename_spec.
    unfold os_rename.
    assert (Hc : lookup (root w) (resolve w (Path_join p n)) = Some c).
    { rewrite resolve_join, (lookup_child _ _ n _ Hes). simpl.
      rewrite String.eqb_refl. reflexivity. }
    rewrite Hc.
    assert (Hsame : same_path (resolve w (Path_join p n)) (resolve w (Path_join p n)) = true)
      by (apply same_path_eq; reflexivity).
    rewrite Hsame. destruct w; reflexivity.
Qed.

Lemma handle_spill_own_parent_witness :
  handle_spill Ref.env "./" Ref.w0
  = shutil_copytree Ref.env (Path_of "./") (Path_of "./") Ref.w0.
Proof.
  apply (proj1 (proj2 (handle_spill_own_parent Ref.env "./" Ref.w0 eq_refl))
           [("notes.txt", File "remember the milk");
            ("data", Dir [("a.txt", File "A"); ("b.txt", File "B")]);
            ("out", Dir [])]).
  - reflexivity.
  - simpl. lia.
Defined.

(* ------------------------------------------------------------------ *)
(** ** What the spill loop does to the file system, in order *)

Lemma height_single_pos n c : 1 <= height (Dir [(n, c)]).
Proof. simpl. lia. Qed.

Lemma spill_loop_events E fuel : forall sd p w r w',
  spill_loop E fuel sd p w = Some (r, w') ->
  exists renames merge,
    trace w' = (trace w ++ renames ++ merge)%list /\
    Forall (fun e => exists cur n, e = EvRename (Path_join cur n) (Path_join sd n))
           renames /\
    (merge = [] \/ exists cur, merge = [EvCopytree cur sd]) /\
    length renames <= height_at p w.
Proof.
  induction fuel as [|fuel IH]; intros sd p w r w' H.
  - simpl in H. destruct (is_dir p w); [discriminate |]. injection H as _ <-.
    exists [], []. rewrite app_nil_r. repeat split; auto. simpl. lia.
  - destruct (is_dir p w) eqn:Hd.
    + apply is_dir_true in Hd as [es Hes].
      assert (Hmerge : length es <> 1 ->
                spill_loop E (S fuel) sd p w = Some (r, w') ->
                exists renames merge,
                  trace w' = (trace w ++ renames ++ merge)%list /\
                  Forall (fun e => exists cur n,
                            e = EvRename (Path_join cur n) (Path_join sd n)) renames /\
                  (merge = [] \/ exists cur, merge = [EvCopytree cur sd]) /\
                  length renames <= height_at p w).
      { intros Hlen H0. rewrite (spill_loop_merge E _ _ _ _ _ Hes Hlen) in H0.
        rewrite shutil_copytree_spec in H0. injection H0 as _ <-.
        exists [], [EvCopytree p sd]. repeat split; eauto. simpl. lia. }
      destruct es as [|[n c] [|e es]]; [apply Hmerge; [simpl; lia | exact H] |
                                        | apply Hmerge; [simpl; lia | exact H]].
      rewrite (spill_loop_single E _ _ _ _ _ _ Hes) in H.
      destruct (Path_rename (Path_join p n) (Path_join sd n) w) as [[p'|e] w1] eqn:Er.
      * destruct (rename_single_child sd p w n c p' w1 Hes Er) as (-> & _ & Hh).
        rewrite Path_rename_spec in Er.
        destruct (os_rename _ _ _) as [t|e]; [| discriminate].
        injection Er as <-.
        destruct (IH _ _ _ _ _ H) as (renames & merge & Htr & Hall & Hm & Hlen).
        exists (EvRename (Path_join p n) (Path_join sd n) :: renames), merge.
        split; [| split; [| split]].
        -- rewrite Htr. cbn [trace with_root log]. rewrite <- !app_assoc. reflexivity.
        -- constructor; [eauto | exact Hall].
        -- exact Hm.
        -- simpl. lia.
      * rewrite Path_rename_spec in Er.
        destruct (os_rename _ _ _) as [t|e0]; [discriminate |].
        injection Er as <- <-. injection H as _ <-.
        exists [EvRename (Path_join p n) (Path_join sd n)], [].
        split; [| split; [| split]].
        -- reflexivity.
        -- constructor; [eauto | constructor].
        -- auto.
        -- unfold height_at. rewrite Hes. apply height_single_pos.
    + rewrite spill_loop_not_dir in H by assumption. injection H as _ <-.
      exists [], []. rewrite app_nil_r. repeat split; auto. simpl. lia.
Qed.

(** X12. All that [handle_spill] does is a run of renames followed by at
    most one merge, which is then the last thing it does: it prints
    nothing and starts no child.  Every rename goes from the current
    directory straight into the parent of the destination, the merge goes
    into that parent too, and there are at most as many renames as the tree
    at the destination is high. *)
Theorem handle_spill_events (E : Env) (dst : string) (w : world) :
  exists renames merge,
    trace (snd (handle_spill E dst w)) = (trace w ++ renames ++ merge)%list /\
    Forall (fun e => exists cur n,
              e = EvRename (Path_join cur n)
                           (Path_join (Path_parent (Path_of dst)) n)) renames /\
    (merge = [] \/ exists cur, merge = [EvCopytree cur (Path_parent (Path_of dst))]) /\
    length renames <= height_at (Path_of dst) w.
Proof.
  pose proof (handle_spill_loop E dst w) as H.
  destruct (handle_spill E dst w) as [r w'].
  exact (spill_loop_events E _ _ _ _ _ _ H).
Qed.

(* ------------------------------------------------------------------ *)
(** ** The order of the phases of [main] *)

Lemma execute_command_events E command w :
  exists l,
    trace (snd (execute_command E command w)) = (trace w ++ l)%list /\
    (forall e, In e l -> (exists line, e = EvPrint line) \/ e = EvExec command).
Proof.
  rewrite execute_command_spec.
  destruct (spawn E command _) as [[code|e0] t]; [destruct (code =? 0)%Z |]; cbn;
    rewrite <- ?app_assoc; eexists; (split; [reflexivity |]);
    intros e Hin; cbn in Hin; intuition eauto.
Qed.

Lemma handle_extract_events E src dst w :
  exists l,
    trace (snd (handle_extract E src dst w)) = (trace w ++ l)%list /\
    (forall e, In e l ->
       (exists line, e = EvPrint line) \/ (exists cmd, e = EvExec cmd /\ is_atool cmd)).
Proof.
  unfold handle_extract. destruct (is_file (Path_of src) w); cbn [negb].
  - destruct (execute_command_events E
                ["atool"; Path_str (Path_of src); "--extract-to"; dst] w)
      as (l & Hl & Hev).
    exists l. split; [exact Hl |]. intros e Hin.
    destruct (Hev e Hin) as [Hp| ->]; [left; exact Hp |].
    right. eexists. split; [reflexivity |]. do 2 eexists. reflexivity.
  - cbn. eexists [_]. split; [reflexivity |]. intros e [<-|[]]. left. eauto.
Qed.

Lemma cleanup_events tmp w :
  trace (snd (cleanup tmp w))
  = (trace w ++ match tmp with Some t => [EvUnlink t] | None => [] end)%list.
Proof.
  destruct tmp as [t|]; cbn [cleanup].
  - rewrite unlink_spec.
    destruct (lookup (root w) (resolve w (Path_of t))) as [[d|es]|]; try reflexivity.
    destruct (set_at (root w) (resolve w (Path_of t)) None); reflexivity.
  - cbn. rewrite app_nil_r. reflexivity.
Qed.

(** X13. Every run goes through its phases in one order: the transport,
    then (only when the run extracts) the extraction, which prints and
    starts atool and nothing else, then (only when the run spills) the
    spill, whose renames and merge all go into the parent of the destination
    as it was given, never of the temporary archive, and last of all, exactly
    once and on every way out of an extracting run, the unlink of the
    temporary archive. *)
Theorem main_phase_order (E : Env) (argv0 src dst : string)
    (extra_opts : list string) (w : world) :
  exists extraction spill,
    trace (snd (main E argv0 src dst extra_opts w)) =
      (trace (snd (run_transport E (chosen_transport E argv0 src dst w) src
                     (transport_dst E argv0 dst w) extra_opts w))
       ++ extraction ++ spill
       ++ if should_extract argv0 then [EvUnlink (mktemp E w)] else [])%list /\
    (forall e, In e extraction ->
       (exists line, e = EvPrint line) \/ (exists cmd, e = EvExec cmd /\ is_atool cmd)) /\
    (should_extract argv0 = false -> extraction = []) /\
    (forall e, In e spill ->
       (exists cur n, e = EvRename (Path_join cur n)
                                   (Path_join (Path_parent (Path_of dst)) n)) \/
       (exists cur, e = EvCopytree cur (Path_parent (Path_of dst)))) /\
    (should_dig argv0 = false -> spill = []).
Proof.
  rewrite main_phases, try_finally_world, cleanup_events.
  assert (Hcl : match tmp_archive_of E argv0 w with
                | Some t => [EvUnlink t]
                | None => []
                end = if should_extract argv0 then [EvUnlink (mktemp E w)] else [])
    by (unfold tmp_archive_of; destruct (should_extract argv0); reflexivity).
  rewrite Hcl. clear Hcl. unfold bind.
  assert (Hspill : forall w0, exists spill,
             trace (snd ((if should_dig argv0 then handle_spill E dst else ret tt) w0))
             = (trace w0 ++ spill)%list /\
             (forall e, In e spill ->
                (exists cur n, e = EvRename (Path_join cur n)
                                            (Path_join (Path_parent (Path_of dst)) n)) \/
                (exists cur, e = EvCopytree cur (Path_parent (Path_of dst)))) /\
             (should_dig argv0 = false -> spill = [])).
  { intro w0. destruct (should_dig argv0).
    - pose proof (handle_spill_loop E dst w0) as Hloop.
      destruct (handle_spill E dst w0) as [r0 w0'].
      destruct (spill_loop_events E _ _ _ _ _ _ Hloop)
        as (renames & merge & Htr & Hall & Hm & _).
      exists (renames ++ merge)%list. split; [exact Htr |]. split; [| discriminate].
      intros e Hin. apply in_app_or in Hin as [Hin|Hin].
      + left. rewrite Forall_forall in Hall. apply Hall. exact Hin.
      + right. destruct Hm as [->|[cur ->]]; [contradiction |].
        destruct Hin as [<-|[]]. eauto.
    - exists []. cbn. rewrite app_nil_r. split; [reflexivity |].
      split; [intros e [] | reflexivity]. }
  destruct (run_transport E _ src _ extra_opts w) as [[u|e] w1]; cbn [snd].
  - unfold after_transport, bind, tmp_archive_of.
    destruct (should_extract argv0) eqn:Hx.
    + destruct (handle_extract_events E (mktemp E w) dst w1) as (lx & Hlx & Hev).
      destruct (handle_extract E (mktemp E w) dst w1) as [[u2|e2] w2]; cbn [snd] in *.
      * cbn [ret]. destruct (Hspill w2) as (sp & Hsp & Hshape & Hoff).
        exists lx, sp. rewrite Hsp, Hlx, <- !app_assoc.
        split; [reflexivity |]. split; [exact Hev |]. split; [discriminate |].
        split; [exact Hshape | exact Hoff].
      * exists lx, []. rewrite Hlx, <- !app_assoc.
        split; [reflexivity |]. split; [exact Hev |]. split; [discriminate |].
        split; [intros e [] | reflexivity].
    + cbn [ret]. destruct (Hspill w1) as (sp & Hsp & Hshape & Hoff).
      exists [], sp. rewrite Hsp, <- !app_assoc.
      split; [reflexivity |]. split; [intros e [] |]. split; [reflexivity |].
      split; [exact Hshape | exact Hoff].
  - exists [], [].
    split; [reflexivity |]. split; [intros e0 [] |]. split; [reflexivity |].
    split; [intros e0 [] | reflexivity].
Qed.
